(** * The AWS provider client of the runtime scanner

    A shallow embedding of [runtime_scan/pkg/provider/aws/client.go]:
    scope conversion, filter compilation, region resolution, paginated
    instance discovery with tag exclusion, and the launch request built by
    [RunScanningJob].

    Conventions.
    - Go strings are byte strings: [string].
    - The SDK's [*string] fields that the client dereferences without a nil
      check ([Tag.Key], [Tag.Value], [Instance.InstanceId],
      [Region.RegionName], ...) are modelled by the string behind the
      pointer.  Pointer fields whose presence the client or the service
      looks at ([NextToken], [KeyName], [AllRegions], [Filter.Name], ...)
      are [option]s, and so are the pointers of a launched instance
      ([InstanceId], [Placement], [AvailabilityZone]), whose dereference
      decides how [RunScanningJob] ends.
    - A slice that is only built and read is a [list]; nil and empty slices
      are both [[]].  The one slice whose backing storage is shared between
      loop iterations ([filters] in [Discover]) is modelled with an explicit
      store of backing arrays, see [Module slices].
    - A Go [error] is modelled by its message, and a Go result pair
      [(value, error)] by a pair with an optional error.
    - Calls of the service are effects on a world that holds the state of
      the service, the store of backing arrays, and the list of calls made
      so far with their answers.  The context argument and logging are left
      out.
    - The pagination loop of [GetInstances] runs as long as the service
      keeps returning tokens; the model gives it fuel and has an outcome of
      its own for running out of it. *)

From Stdlib Require Import ZArith Lia.
From stdpp Require Import base list strings gmap.

Open Scope Z_scope.
Open Scope nat_scope.

(** ** Data model *)

(** Types of the EC2 SDK ([ec2types]), restricted to the fields the client
    reads or writes. *)
Module ec2types.

Record Tag := { Key : string; Value : string }.

Record Filter := { Name : option string; Values : list string }.

Record Instance := { InstanceId : string; Tags : list Tag }.

Record Reservation := { Instances : list Instance }.

Record Region := { RegionName : string }.

Inductive ResourceType := ResourceTypeInstance | ResourceTypeVolume.

Inductive InstanceType := InstanceTypeT2Large.

Record TagSpecification :=
  { ResourceType_ : ResourceType; Tags_ : list Tag }.

Record InstanceNetworkInterfaceSpecification :=
  { AssociatePublicIpAddress : option bool;
    DeleteOnTermination : option bool;
    DeviceIndex : option Z;
    Groups : list string;
    SubnetId : option string }.

Record Placement := { AvailabilityZone : option string }.

Record LaunchedInstance :=
  { LaunchedInstanceId : option string; Placement_ : option Placement }.

#[global] Instance Tag_eq_dec : EqDecision Tag.
Proof. solve_decision. Defined.
#[global] Instance Filter_eq_dec : EqDecision Filter.
Proof. solve_decision. Defined.

End ec2types.

(** Types of the generated API model ([api/models]); the fields are the ones
    [convertScope] and its helpers read. *)
Module models.

Record Tag := { Key : string; Value : string }.

Record AwsSecurityGroup := { Id : string }.

Record AwsVPC :=
  { VpcId : string; SecurityGroups : option (list AwsSecurityGroup) }.

Record AwsRegion := { Name : string; Vpcs : option (list AwsVPC) }.

Record AwsScanScope :=
  { AllRegions : option bool;
    Regions : option (list AwsRegion);
    ShouldScanStoppedInstances : option bool;
    InstanceTagSelector : option (list Tag);
    InstanceTagExclusion : option (list Tag) }.

End models.

(** Types of the [aws] provider package. *)
Record Tag := { Key : string; Val : string }.

Record SecurityGroup := { sg_id : string }.

Record VPC := { vpc_id : string; securityGroups : list SecurityGroup }.

Record Region := { name : string; vpcs : list VPC }.

Record ScanScope :=
  { AllRegions : bool;
    Regions : list Region;
    ScanStopped : bool;
    TagSelector : list Tag;
    ExcludeTags : list Tag }.

(** [InstanceImpl], without its client handle. *)
Record InstanceImpl :=
  { inst_id : string; inst_region : string; inst_availabilityZone : string }.

#[global] Instance InstanceImpl_eq_dec : EqDecision InstanceImpl.
Proof. solve_decision. Defined.

(** The client's configuration ([config/aws.Config]). *)
Record Config :=
  { AmiID : string; SecurityGroupID : string; SubnetID : string }.

(** ** Package-level values *)

Definition tagKey : string := "Owner".
Definition tagVal : string := "VMClarity".
Definition vmclarityTags : list ec2types.Tag :=
  [ {| ec2types.Key := tagKey; ec2types.Value := tagVal |} ].
Definition nameTagKey : string := "Name".

Definition vpcIDFilterName : string := "vpc-id".
Definition sgIDFilterName : string := "instance.group-id".
Definition instanceStateFilterName : string := "instance-state-name".

(** ** Go loops over slices *)

(** [for i, x := range l { acc = body acc i x }] *)
Definition range_loop {A B} (body : B → nat → A → B) (l : list A) (init : B) : B :=
  foldl (λ acc ix, body acc ix.1 ix.2) init (zip (seq 0 (length l)) l).

(** ** Scope conversion *)

Definition convertBool (all : option bool) : bool :=
  match all with
  | Some b => b
  | None => false
  end.

Definition convertTags (tags : option (list models.Tag)) : list Tag :=
  match tags with
  | Some tags =>
      foldl (λ ret tag,
               ret ++ [ {| Key := models.Key tag; Val := models.Value tag |} ])
            [] tags
  | None => []
  end.

Definition convertSecurityGroups
    (securityGroups : option (list models.AwsSecurityGroup)) : list SecurityGroup :=
  match securityGroups with
  | None => []
  | Some sgs =>
      range_loop (λ ret i securityGroup,
                    <[ i := {| sg_id := models.Id securityGroup |} ]> ret)
                 sgs (replicate (length sgs) {| sg_id := "" |})
  end.

Definition convertVPCs (vpcs : option (list models.AwsVPC)) : list VPC :=
  match vpcs with
  | None => []
  | Some vs =>
      range_loop (λ ret i vpc,
                    <[ i := {| vpc_id := models.VpcId vpc;
                               securityGroups :=
                                 convertSecurityGroups (models.SecurityGroups vpc) |} ]> ret)
                 vs (replicate (length vs) {| vpc_id := ""; securityGroups := [] |})
  end.

Definition convertRegions (regions : option (list models.AwsRegion)) : list Region :=
  match regions with
  | Some regions =>
      foldl (λ ret region,
               ret ++ [ {| name := models.Name region;
                           vpcs := convertVPCs (models.Vpcs region) |} ])
            [] regions
  | None => []
  end.

Definition convertScope (scope : models.AwsScanScope) : ScanScope :=
  let allRegions :=
    match models.AllRegions scope with
    | Some b => b
    | None => false
    end in
  {| AllRegions := allRegions;
     Regions := convertRegions (models.Regions scope);
     ScanStopped := convertBool (models.ShouldScanStoppedInstances scope);
     TagSelector := convertTags (models.InstanceTagSelector scope);
     ExcludeTags := convertTags (models.InstanceTagExclusion scope) |}.

(** ** Filter compilation *)

Definition getVPCSecurityGroupsIDs (vpc : VPC) : list string :=
  range_loop (λ sgs i sg, <[ i := sg_id sg ]> sgs)
             (securityGroups vpc)
             (replicate (length (securityGroups vpc)) "").

Definition createVPCFilters (vpc : VPC) : list ec2types.Filter :=
  let ret := [] in
  let ret := ret ++ [ {| ec2types.Name := Some vpcIDFilterName;
                         ec2types.Values := [vpc_id vpc] |} ] in
  let sgs := getVPCSecurityGroupsIDs vpc in
  if 0 <? length sgs
  then ret ++ [ {| ec2types.Name := Some sgIDFilterName;
                   ec2types.Values := sgs |} ]
  else ret.

Definition createInstanceStateFilters (scanStopped : bool) : list ec2types.Filter :=
  let filters := [] in
  let states := ["running"] in
  let states := if scanStopped then states ++ ["stopped"] else states in
  filters ++ [ {| ec2types.Name := Some instanceStateFilterName;
                  ec2types.Values := states |} ].

Definition createInclusionTagsFilters (tags : list Tag) : list ec2types.Filter :=
  foldl (λ filters tag,
           filters ++ [ {| ec2types.Name := Some ("tag:" +:+ Key tag);
                           ec2types.Values := [Val tag] |} ])
        [] tags.

(** ** Tag exclusion *)

(** The map the first loop of [hasExcludeTags] builds: a later tag with the
    same key overwrites an earlier one. *)
Definition instanceTagsMap (instanceTags : list ec2types.Tag) : gmap string string :=
  foldl (λ m tag, <[ ec2types.Key tag := ec2types.Value tag ]> m) ∅ instanceTags.

(** The second loop of [hasExcludeTags], which returns at the first tag of
    [excludeTags] that the map does not hold with the same value. *)
Fixpoint allExcludeTagsIn (m : gmap string string) (excludeTags : list Tag) : bool :=
  match excludeTags with
  | [] => true
  | tag :: rest =>
      match m !! Key tag with
      | None => false
      | Some val =>
          if negb (String.eqb val (Val tag)) then false
          else allExcludeTagsIn m rest
      end
  end.

Definition hasExcludeTags
    (excludeTags : list Tag) (instanceTags : list ec2types.Tag) : bool :=
  if length excludeTags =? 0 then false
  else if length instanceTags =? 0 then false
  else allExcludeTagsIn (instanceTagsMap instanceTags) excludeTags.

(** ** Launch tags *)

Definition createInstanceTags (id : string) : list ec2types.Tag :=
  let nameTagValue := "vmclarity-scanner-" +:+ id in
  let ret := [] in
  let ret := ret ++ vmclarityTags in
  ret ++ [ {| ec2types.Key := nameTagKey; ec2types.Value := nameTagValue |} ].

(** ** Slices with shared backing arrays

    A slice header names a backing array in the store and gives its length
    and capacity.  [append] follows the language definition: when the
    capacity suffices the new elements are written into the backing array of
    the argument, which the result then shares; otherwise a new array is
    allocated.  How much capacity a new array gets is the runtime's choice,
    a parameter [growcap] here. *)
Module slices.

Record slice := { arr : option nat; len : nat; cap : nat }.

Definition nil_slice : slice := {| arr := None; len := 0; cap := 0 |}.

(** The capacity the runtime gives to an array it allocates on growth, from
    the old capacity and the length needed. *)
Definition growth := nat → nat → nat.

(** Doubling: twice the old capacity unless that is not enough.  The
    runtime doubles short slices too and then rounds the capacity up to an
    allocation size class, which this rule leaves out. *)
Definition growcap_double : growth :=
  λ oldCap newLen, if 2 * oldCap <? newLen then newLen else 2 * oldCap.

(** The tightest rule: exactly the length needed. *)
Definition growcap_exact : growth := λ _ newLen, newLen.

Section Store.
Context {A : Type} (zero : A).

(** The store holds the backing arrays, by address. *)

Definition backing (h : list (list A)) (s : slice) : list A :=
  match arr s with
  | Some a => default [] (h !! a)
  | None => []
  end.

(** The elements of a slice. *)
Definition elems (h : list (list A)) (s : slice) : list A :=
  take (len s) (backing h s).

(** [copy(l[i:], xs)] for [i + len(xs) <= len(l)]. *)
Definition write_at (i : nat) (xs l : list A) : list A :=
  take i l ++ xs ++ drop (i + length xs) l.

Definition append (growcap : growth) (s : slice) (xs : list A) (h : list (list A))
  : slice * list (list A) :=
  let newLen := len s + length xs in
  if newLen <=? cap s then
    match arr s with
    | Some a =>
        ({| arr := Some a; len := newLen; cap := cap s |},
         <[ a := write_at (len s) xs (backing h s) ]> h)
    | None => (s, h)
    end
  else
    let newCap := growcap (cap s) newLen in
    ({| arr := Some (length h); len := newLen; cap := newCap |},
     h ++ [ elems h s ++ xs ++ replicate (newCap - newLen) zero ]).

(** A slice header is valid in a store when its backing array is there and
    has the slice's capacity. *)
Definition valid (h : list (list A)) (s : slice) : Prop :=
  len s ≤ cap s ∧
  match arr s with
  | Some a => ∃ l, h !! a = Some l ∧ length l = cap s
  | None => cap s = 0
  end.

End Store.

End slices.

Import slices.

Definition zeroFilter : ec2types.Filter :=
  {| ec2types.Name := None; ec2types.Values := [] |}.

(** ** The EC2 service as the client sees it *)

Inductive Result (A : Type) :=
| Ok (a : A)
| Err (msg : string).
Arguments Ok {A} a.
Arguments Err {A} msg.

Module ec2.

Record DescribeInstancesInput :=
  { Filters : list ec2types.Filter;
    MaxResults : option Z;
    NextToken : option string }.

Record DescribeInstancesOutput :=
  { Reservations : list ec2types.Reservation;
    NextToken_ : option string }.

Record DescribeRegionsInput := { AllRegions : option bool }.

Record DescribeRegionsOutput := { Regions : list ec2types.Region }.

Record RunInstancesInput :=
  { MaxCount : option Z;
    MinCount : option Z;
    ImageId : option string;
    InstanceType : ec2types.InstanceType;
    TagSpecifications : list ec2types.TagSpecification;
    UserData : option string;
    NetworkInterfaces : list ec2types.InstanceNetworkInterfaceSpecification;
    KeyName : option string }.

Record RunInstancesOutput := { Instances : list ec2types.LaunchedInstance }.

(** A service with state [S]: each operation answers a request, in a region
    where the client chooses one, and moves to a new state. *)
Record Client (S : Type) :=
  { DescribeInstances :
      DescribeInstancesInput → string → S → Result DescribeInstancesOutput * S;
    DescribeRegions :
      DescribeRegionsInput → S → Result DescribeRegionsOutput * S;
    RunInstances :
      RunInstancesInput → string → S → Result RunInstancesOutput * S }.
Arguments DescribeInstances {S} _ _ _ _.
Arguments DescribeRegions {S} _ _ _.
Arguments RunInstances {S} _ _ _ _.

End ec2.

(** What the client did, in order: each request with the answer it got.  A
    [DescribeInstances] event also keeps the slice header the client passed
    as [Filters]; the request holds that slice's elements at the time of the
    call. *)
Inductive Event :=
| EvDescribeInstances (filters : slice) (input : ec2.DescribeInstancesInput)
    (regionID : string) (out : Result ec2.DescribeInstancesOutput)
| EvDescribeRegions (input : ec2.DescribeRegionsInput)
    (out : Result ec2.DescribeRegionsOutput)
| EvRunInstances (input : ec2.RunInstancesInput) (region : string)
    (out : Result ec2.RunInstancesOutput).

Record World (S : Type) :=
  { heap : list (list ec2types.Filter);
    calls : list Event;
    service : S }.
Arguments heap {S} _.
Arguments calls {S} _.
Arguments service {S} _.

(** How a computation ends.  [OutOfFuel] stands for a loop still running
    when the fuel given to the model is used up. *)
Inductive Exec (S A : Type) :=
| Done (a : A) (w : World S)
| Panic (w : World S)
| OutOfFuel (w : World S).
Arguments Done {S A} a w.
Arguments Panic {S A} w.
Arguments OutOfFuel {S A} w.

Definition world_of {S A} (e : Exec S A) : World S :=
  match e with
  | Done _ w | Panic w | OutOfFuel w => w
  end.

Definition M (S A : Type) := World S → Exec S A.

Definition mreturn {S A} (a : A) : M S A := λ w, Done a w.

Definition bind {S A B} (m : M S A) (k : A → M S B) : M S B :=
  λ w, match m w with
       | Done a w' => k a w'
       | Panic w' => Panic w'
       | OutOfFuel w' => OutOfFuel w'
       end.

Notation "x <~ m ;; k" := (bind m (λ x, k))
  (at level 100, m at next level, right associativity,
   format "x  <~  m  ;;  '//' k").

Definition out_of_fuel {S A} : M S A := λ w, OutOfFuel w.

(** A run-time panic: an index out of range or the dereference of a nil
    pointer. *)
Definition panic {S A} : M S A := λ w, Panic w.

(** [fmt.Errorf("<context>: %v", err)] *)
Definition Errorf (context err : string) : string := context +:+ ": " +:+ err.

(** Types of the packages [provider] and [cloudinit]. *)
Record ScanningJobConfig :=
  { ScannerImage : string;
    ScannerCLIConfig : string;
    VMClarityAddress : string;
    ScanResultID : string;
    KeyPairName : string }.

Module cloudinit.

Record Data :=
  { ScannerCLIConfig : string;
    ScannerImage : string;
    ServerAddress : string;
    ScanResultID : string }.

End cloudinit.

(** A Go result pair [(value, error)]. *)
Definition GoResult (A : Type) : Type := A * option string.

(** ** The client *)

Record Client (S : Type) :=
  { ec2Client : ec2.Client S;
    awsConfig : Config }.
Arguments ec2Client {S} _.
Arguments awsConfig {S} _.

Section Client.

(** The state of the service behind the client. *)
Context {S : Type}.
(** The runtime's growth rule for slices. *)
Context (growcap : growth).
(** The package constant [maxResults], declared outside [client.go]. *)
Context (maxResults : Z).
(** [models.ScanScopeType] and its accessor [AsAwsScanScope]. *)
Context {ScanScopeType : Type}.
Context (AsAwsScanScope : ScanScopeType → Result models.AwsScanScope).
(** [cloudinit.GenerateCloudInit] and [base64.StdEncoding.EncodeToString]. *)
Context (GenerateCloudInit : cloudinit.Data → Result string).
Context (base64_EncodeToString : string → string).

(** *** Effects *)

(** [append(s, xs...)] on a slice of filters. *)
Definition go_append (s : slice) (xs : list ec2types.Filter) : M S slice :=
  λ w, let '(s', h') := append zeroFilter growcap s xs (heap w) in
       Done s' {| heap := h'; calls := calls w; service := service w |}.

(** [c.ec2Client.DescribeInstances(ctx, &ec2.DescribeInstancesInput{Filters:
    filters, MaxResults: ..., NextToken: ...}, region option)] *)
Definition callDescribeInstances (c : Client S) (filters : slice)
    (MaxResults : option Z) (NextToken : option string) (regionID : string)
  : M S (Result ec2.DescribeInstancesOutput) :=
  λ w, let input := {| ec2.Filters := elems (heap w) filters;
                       ec2.MaxResults := MaxResults;
                       ec2.NextToken := NextToken |} in
       let '(out, s') := ec2.DescribeInstances (ec2Client c) input regionID (service w) in
       Done out {| heap := heap w;
                   calls := calls w ++ [EvDescribeInstances filters input regionID out];
                   service := s' |}.

Definition callDescribeRegions (c : Client S) (input : ec2.DescribeRegionsInput)
  : M S (Result ec2.DescribeRegionsOutput) :=
  λ w, let '(out, s') := ec2.DescribeRegions (ec2Client c) input (service w) in
       Done out {| heap := heap w;
                   calls := calls w ++ [EvDescribeRegions input out];
                   service := s' |}.

Definition callRunInstances (c : Client S) (input : ec2.RunInstancesInput)
    (region : string) : M S (Result ec2.RunInstancesOutput) :=
  λ w, let '(out, s') := ec2.RunInstances (ec2Client c) input region (service w) in
       Done out {| heap := heap w;
                   calls := calls w ++ [EvRunInstances input region out];
                   service := s' |}.

(** *** Discovery *)

Definition getInstancesFromDescribeInstancesOutput
    (result : ec2.DescribeInstancesOutput) (excludeTags : list Tag)
    (regionID : string) : list InstanceImpl :=
  foldl (λ ret reservation,
           foldl (λ ret instance,
                    if hasExcludeTags excludeTags (ec2types.Tags instance)
                    then ret
                    else ret ++ [ {| inst_id := ec2types.InstanceId instance;
                                     inst_region := regionID;
                                     inst_availabilityZone := "" |} ])
                 ret (ec2types.Instances reservation))
        [] (ec2.Reservations result).

(** The pagination loop of [GetInstances]: [fuel] bounds the number of
    further pages asked for. *)
Fixpoint GetInstances_pages (fuel : nat) (c : Client S) (filters : slice)
    (excludeTags : list Tag) (regionID : string)
    (out : ec2.DescribeInstancesOutput) (ret : list InstanceImpl)
  : M S (GoResult (list InstanceImpl)) :=
  match ec2.NextToken_ out with
  | None => mreturn (ret, None)
  | Some token =>
      match fuel with
      | 0 => out_of_fuel
      | Datatypes.S fuel =>
          r <~ callDescribeInstances c filters (Some maxResults) (Some token) regionID ;;
          match r with
          | Err err => mreturn ([], Some (Errorf "failed to describe instances" err))
          | Ok out =>
              GetInstances_pages fuel c filters excludeTags regionID out
                (ret ++ getInstancesFromDescribeInstancesOutput out excludeTags regionID)
          end
      end
  end.

Definition GetInstances (fuel : nat) (c : Client S) (filters : slice)
    (excludeTags : list Tag) (regionID : string)
  : M S (GoResult (list InstanceImpl)) :=
  let ret := [] in
  r <~ callDescribeInstances c filters (Some maxResults) None regionID ;;
  match r with
  | Err err => mreturn ([], Some (Errorf "failed to describe instances" err))
  | Ok out =>
      let ret := ret ++ getInstancesFromDescribeInstancesOutput out excludeTags regionID in
      GetInstances_pages fuel c filters excludeTags regionID out ret
  end.

Definition ListAllRegions (c : Client S) : M S (GoResult (list Region)) :=
  let ret := [] in
  r <~ callDescribeRegions c {| ec2.AllRegions := None |} ;;
  match r with
  | Err err => mreturn ([], Some (Errorf "failed to describe regions" err))
  | Ok out =>
      mreturn
        (foldl (λ ret region,
                  ret ++ [ {| name := ec2types.RegionName region; vpcs := [] |} ])
               ret (ec2.Regions out),
         None)
  end.

Definition getRegionsToScan (c : Client S) (scope : ScanScope)
  : M S (GoResult (list Region)) :=
  if AllRegions scope then ListAllRegions c
  else mreturn (Regions scope, None).

(** The loop over the VPCs of one region in [Discover]. *)
Fixpoint Discover_vpcs (fuel : nat) (c : Client S) (filters : slice)
    (excludeTags : list Tag) (regionName : string) (vpcs : list VPC)
    (ret : list InstanceImpl) : M S (GoResult (list InstanceImpl)) :=
  match vpcs with
  | [] => mreturn (ret, None)
  | vpc :: vpcs =>
      vpcFilters <~ go_append filters (createVPCFilters vpc) ;;
      r <~ GetInstances fuel c vpcFilters excludeTags regionName ;;
      match r with
      | (_, Some err) => mreturn ([], Some (Errorf "failed to get instances" err))
      | (instances, None) =>
          Discover_vpcs fuel c filters excludeTags regionName vpcs (ret ++ instances)
      end
  end.

(** The loop over the regions in [Discover]. *)
Fixpoint Discover_regions (fuel : nat) (c : Client S) (filters : slice)
    (excludeTags : list Tag) (regions : list Region)
    (ret : list InstanceImpl) : M S (GoResult (list InstanceImpl)) :=
  match regions with
  | [] => mreturn (ret, None)
  | region :: regions =>
      if length (vpcs region) =? 0 then
        r <~ GetInstances fuel c filters excludeTags (name region) ;;
        match r with
        | (_, Some err) => mreturn ([], Some (Errorf "failed to get instances" err))
        | (instances, None) =>
            Discover_regions fuel c filters excludeTags regions (ret ++ instances)
        end
      else
        r <~ Discover_vpcs fuel c filters excludeTags (name region) (vpcs region) ret ;;
        match r with
        | (_, Some err) => mreturn ([], Some err)
        | (ret, None) =>
            Discover_regions fuel c filters excludeTags regions ret
        end
  end.

(** The base filters of [Discover]: the two appends to the nil slice. *)
Definition Discover_filters (scope : ScanScope) : M S slice :=
  let filters := nil_slice in
  filters <~ go_append filters (createInclusionTagsFilters (TagSelector scope)) ;;
  go_append filters (createInstanceStateFilters (ScanStopped scope)).

(** [fuel] is given to each call of [GetInstances]. *)
Definition Discover (fuel : nat) (c : Client S) (scanScope : ScanScopeType)
  : M S (GoResult (list InstanceImpl)) :=
  let ret := [] in
  match AsAwsScanScope scanScope with
  | Err err => mreturn ([], Some (Errorf "failed to convert as aws scope" err))
  | Ok awsScanScope =>
      let scope := convertScope awsScanScope in
      r <~ getRegionsToScan c scope ;;
      match r with
      | (_, Some err) => mreturn ([], Some (Errorf "failed to get regions to scan" err))
      | (regions, None) =>
          if length regions =? 0 then mreturn ([], Some "no regions to scan")
          else
            filters <~ Discover_filters scope ;;
            Discover_regions fuel c filters (ExcludeTags scope) regions ret
      end
  end.

(** *** Provisioning *)

Definition RunScanningJob (c : Client S) (region id : string)
    (config : ScanningJobConfig) : M S (GoResult (option InstanceImpl)) :=
  let cloudInitData :=
    {| cloudinit.ScannerCLIConfig := ScannerCLIConfig config;
       cloudinit.ScannerImage := ScannerImage config;
       cloudinit.ServerAddress := VMClarityAddress config;
       cloudinit.ScanResultID := ScanResultID config |} in
  match GenerateCloudInit cloudInitData with
  | Err err => mreturn (None, Some (Errorf "failed to generate cloud-init" err))
  | Ok userData =>
      let instanceTags := createInstanceTags id in
      let userDataBase64 := base64_EncodeToString userData in
      let tagSpecifications :=
        [ {| ec2types.ResourceType_ := ec2types.ResourceTypeInstance;
             ec2types.Tags_ := instanceTags |};
          {| ec2types.ResourceType_ := ec2types.ResourceTypeVolume;
             ec2types.Tags_ := vmclarityTags |} ] in
      let networkInterfaces :=
        [ {| ec2types.AssociatePublicIpAddress := Some false;
             ec2types.DeleteOnTermination := Some true;
             ec2types.DeviceIndex := Some 0%Z;
             ec2types.Groups := [SecurityGroupID (awsConfig c)];
             ec2types.SubnetId := Some (SubnetID (awsConfig c)) |} ] in
      let keyName :=
        if negb (String.eqb (KeyPairName config) "")
        then Some (KeyPairName config)
        else None in
      let runInstancesInput :=
        {| ec2.MaxCount := Some 1%Z;
           ec2.MinCount := Some 1%Z;
           ec2.ImageId := Some (AmiID (awsConfig c));
           ec2.InstanceType := ec2types.InstanceTypeT2Large;
           ec2.TagSpecifications := tagSpecifications;
           ec2.UserData := Some userDataBase64;
           ec2.NetworkInterfaces := networkInterfaces;
           ec2.KeyName := keyName |} in
      r <~ callRunInstances c runInstancesInput region ;;
      match r with
      | Err err => mreturn (None, Some (Errorf "failed to run instances" err))
      | Ok out =>
          match ec2.Instances out with
          | [] => panic
          | instance :: _ =>
              match ec2types.LaunchedInstanceId instance with
              | None => panic
              | Some instanceId =>
                  match ec2types.Placement_ instance with
                  | None => panic
                  | Some placement =>
                      match ec2types.AvailabilityZone placement with
                      | None => panic
                      | Some availabilityZone =>
                          mreturn
                            (Some {| inst_id := instanceId;
                                     inst_region := region;
                                     inst_availabilityZone := availabilityZone |},
                             None)
                      end
                  end
              end
          end
      end
  end.

End Client.

(** ** A simulated service

    [DescribeRegions] follows the documented contract of the EC2 operation:
    its [AllRegions] option "indicates whether to display all Regions,
    including Regions that are disabled for your account"; when it is unset
    or false only the regions enabled for the account are listed.
    [DescribeInstances] and [RunInstances] answer from a script, one answer
    per call, whatever the request. *)
Module sim.

Record State :=
  { catalog : list (string * bool);
    instancePages : list (Result ec2.DescribeInstancesOutput);
    launches : list (Result ec2.RunInstancesOutput) }.

Definition toRegion (r : string * bool) : ec2types.Region :=
  {| ec2types.RegionName := r.1 |}.

Definition DescribeRegions (input : ec2.DescribeRegionsInput) (s : State)
  : Result ec2.DescribeRegionsOutput * State :=
  let shown :=
    match ec2.AllRegions input with
    | Some true => catalog s
    | _ => filter (λ r, r.2 = true) (catalog s)
    end in
  (Ok {| ec2.Regions := toRegion <$> shown |}, s).

Definition DescribeInstances (input : ec2.DescribeInstancesInput)
    (regionID : string) (s : State)
  : Result ec2.DescribeInstancesOutput * State :=
  match instancePages s with
  | [] => (Ok {| ec2.Reservations := []; ec2.NextToken_ := None |}, s)
  | page :: rest =>
      (page, {| catalog := catalog s; instancePages := rest; launches := launches s |})
  end.

Definition RunInstances (input : ec2.RunInstancesInput) (region : string)
    (s : State) : Result ec2.RunInstancesOutput * State :=
  match launches s with
  | [] => (Err "no capacity", s)
  | r :: rest =>
      (r, {| catalog := catalog s; instancePages := instancePages s; launches := rest |})
  end.

Definition api : ec2.Client State :=
  {| ec2.DescribeInstances := DescribeInstances;
     ec2.DescribeRegions := DescribeRegions;
     ec2.RunInstances := RunInstances |}.

Definition client : Client State :=
  {| ec2Client := api;
     awsConfig := {| AmiID := "ami-1"; SecurityGroupID := "sg-scan"; SubnetID := "subnet-1" |} |}.

Definition world (s : State) : World State :=
  {| heap := []; calls := []; service := s |}.

Definition instance (id : string) (tags : list ec2types.Tag) : ec2types.Instance :=
  {| ec2types.InstanceId := id; ec2types.Tags := tags |}.

Definition page (ids : list string) (token : option string)
  : ec2.DescribeInstancesOutput :=
  {| ec2.Reservations := [ {| ec2types.Instances := (λ i, instance i []) <$> ids |} ];
     ec2.NextToken_ := token |}.

(** The scope union holding an AWS scope, which [AsAwsScanScope] gives
    back. *)
Definition asAwsScanScope (scanScope : models.AwsScanScope)
  : Result models.AwsScanScope := Ok scanScope.

Definition awsScope (regions : list models.AwsRegion)
    (selector exclusion : list models.Tag) : models.AwsScanScope :=
  {| models.AllRegions := None;
     models.Regions := Some regions;
     models.ShouldScanStoppedInstances := None;
     models.InstanceTagSelector := Some selector;
     models.InstanceTagExclusion := Some exclusion |}.

(** Two regions, scanned whole. *)
Definition twoRegions : models.AwsScanScope :=
  awsScope [ {| models.Name := "us-east-1"; models.Vpcs := None |};
             {| models.Name := "eu-west-1"; models.Vpcs := None |} ] [] [].

(** One region with two VPCs, neither with security groups, and two selected
    tags. *)
Definition twoVpcs : models.AwsScanScope :=
  awsScope
    [ {| models.Name := "us-east-1";
         models.Vpcs :=
           Some [ {| models.VpcId := "vpc-1"; models.SecurityGroups := None |};
                  {| models.VpcId := "vpc-2"; models.SecurityGroups := None |} ] |} ]
    [ {| models.Key := "env"; models.Value := "prod" |};
      {| models.Key := "team"; models.Value := "sec" |} ]
    [].

(** All regions of the account. *)
Definition everywhere : ScanScope :=
  {| AllRegions := true; Regions := []; ScanStopped := false;
     TagSelector := []; ExcludeTags := [] |}.

(** An account with one enabled and one disabled region. *)
Definition account : State :=
  {| catalog := [("us-east-1", true); ("af-south-1", false)];
     instancePages := []; launches := [] |}.

(** A query answered in three pages. *)
Definition threePages : State :=
  {| catalog := [];
     instancePages := [ Ok (page ["i-1"; "i-2"] (Some "t1"));
                        Ok (page ["i-3"] (Some "t2"));
                        Ok (page ["i-4"] None) ];
     launches := [] |}.

(** A first query answered with one instance, a second that fails. *)
Definition secondFails : State :=
  {| catalog := [];
     instancePages := [ Ok (page ["i-1"] None); Err "RequestLimitExceeded" ];
     launches := [] |}.

Definition quiet : State :=
  {| catalog := []; instancePages := []; launches := [] |}.

(** A query whose first page is answered and whose second page fails. *)
Definition secondPageFails : State :=
  {| catalog := [];
     instancePages := [ Ok (page ["i-1"] (Some "t1")); Err "RequestLimitExceeded" ];
     launches := [] |}.

(** A launch that is answered with one instance. *)
Definition launched : State :=
  {| catalog := []; instancePages := [];
     launches :=
       [ Ok {| ec2.Instances :=
                 [ {| ec2types.LaunchedInstanceId := Some "i-scanner";
                      ec2types.Placement_ :=
                        Some {| ec2types.AvailabilityZone := Some "us-east-1a" |} |} ] |} ] |}.

(** A launch that is answered with an instance that has no placement. *)
Definition launchedNowhere : State :=
  {| catalog := []; instancePages := [];
     launches :=
       [ Ok {| ec2.Instances :=
                 [ {| ec2types.LaunchedInstanceId := Some "i-scanner";
                      ec2types.Placement_ := None |} ] |} ] |}.

(** A launch that is answered without any instance. *)
Definition launchedNone : State :=
  {| catalog := []; instancePages := [];
     launches := [ Ok {| ec2.Instances := [] |} ] |}.

End sim.

(** ** Notions the properties are stated with *)

(** The base filters of a scope, as a value. *)
Definition baseFilters (scope : ScanScope) : list ec2types.Filter :=
  createInclusionTagsFilters (TagSelector scope)
  ++ createInstanceStateFilters (ScanStopped scope).

(** A query of [Discover]: a region and the filters to use there.  The
    queries of a region list, in order: one per region without VPCs, one per
    VPC otherwise. *)
Definition Query : Type := string * list ec2types.Filter.

Definition queriesOf (base : list ec2types.Filter) (regions : list Region) : list Query :=
  r ← regions;
  if length (vpcs r) =? 0 then [(name r, base)]
  else (λ vpc, (name r, base ++ createVPCFilters vpc)) <$> vpcs r.

(** A call of the query: same region, same filters, whatever the page. *)
Definition callOf (q : Query) (ev : Event) : Prop :=
  match ev with
  | EvDescribeInstances _ input regionID _ =>
      regionID = q.1 ∧ ec2.Filters input = q.2
  | _ => False
  end.

(** The events are the calls of the queries, in order, each query with at
    least one call. *)
Inductive Served : list Query → list Event → Prop :=
| Served_nil : Served [] []
| Served_cons q qs evs rest :
    evs ≠ [] → Forall (callOf q) evs → Served qs rest →
    Served (q :: qs) (evs ++ rest).

(** A failed instance query. *)
Definition failedQuery (ev : Event) : option string :=
  match ev with
  | EvDescribeInstances _ _ _ (Err err) => Some err
  | _ => None
  end.

(** The filter collection of a call has storage of its own: it does not
    share the backing array of [filters]. *)
Definition ownStorage (filters : slice) (ev : Event) : Prop :=
  match ev with
  | EvDescribeInstances vpcFilters _ _ _ => arr vpcFilters ≠ arr filters
  | _ => True
  end.

(** The filter collection of a call still holds, in store [h], the filters
    that were sent. *)
Definition intactIn (h : list (list ec2types.Filter)) (ev : Event) : Prop :=
  match ev with
  | EvDescribeInstances vpcFilters input _ _ =>
      elems h vpcFilters = ec2.Filters input
  | _ => True
  end.

(** The value the tags of an instance give to a key: that of the last tag
    with the key. *)
Fixpoint lastValue (k : string) (tags : list ec2types.Tag) : option string :=
  match tags with
  | [] => None
  | tag :: rest =>
      match lastValue k rest with
      | Some v => Some v
      | None => if decide (ec2types.Key tag = k) then Some (ec2types.Value tag) else None
      end
  end.

(** The pages the service gives to one query, asked first with [token] in
    state [s]: each page but the last carries the token of the next. *)
Inductive Paging {S} (c : Client S) (maxResults : Z)
    (filters : list ec2types.Filter) (regionID : string)
  : option string → S → list ec2.DescribeInstancesOutput → S → Prop :=
| Paging_last token s out s' :
    ec2.DescribeInstances (ec2Client c)
      {| ec2.Filters := filters; ec2.MaxResults := Some maxResults;
         ec2.NextToken := token |} regionID s = (Ok out, s') →
    ec2.NextToken_ out = None →
    Paging c maxResults filters regionID token s [out] s'
| Paging_more token s out next s1 outs s' :
    ec2.DescribeInstances (ec2Client c)
      {| ec2.Filters := filters; ec2.MaxResults := Some maxResults;
         ec2.NextToken := token |} regionID s = (Ok out, s1) →
    ec2.NextToken_ out = Some next →
    Paging c maxResults filters regionID (Some next) s1 outs s' →
    Paging c maxResults filters regionID token s (out :: outs) s'.

(** The calls the client makes for a list of pages, the first with [token]:
    always the same filters, page size and region, each call after the first
    with the token of the page before it, each answered by its page. *)
Fixpoint pageCalls (maxResults : Z) (filters : slice)
    (elements : list ec2types.Filter) (regionID : string)
    (token : option string) (pages : list ec2.DescribeInstancesOutput)
  : list Event :=
  match pages with
  | [] => []
  | out :: pages =>
      EvDescribeInstances filters
        {| ec2.Filters := elements; ec2.MaxResults := Some maxResults;
           ec2.NextToken := token |} regionID (Ok out)
      :: pageCalls maxResults filters elements regionID (ec2.NextToken_ out) pages
  end.

(** The ids of all instances on the pages. *)
Definition pageIds (pages : list ec2.DescribeInstancesOutput) : list string :=
  out ← pages;
  reservation ← ec2.Reservations out;
  ec2types.InstanceId <$> ec2types.Instances reservation.

(** The instances of a page that survive the exclusion, as a value. *)
Definition survivors (excludeTags : list Tag) (regionID : string)
    (out : ec2.DescribeInstancesOutput) : list InstanceImpl :=
  reservation ← ec2.Reservations out;
  (λ instance, {| inst_id := ec2types.InstanceId instance;
                  inst_region := regionID;
                  inst_availabilityZone := "" |})
    <$> filter (λ instance, hasExcludeTags excludeTags (ec2types.Tags instance) = false)
               (ec2types.Instances reservation).

(** No instance query among the events failed. *)
Definition noFailure (evs : list Event) : Prop :=
  Forall (λ ev, failedQuery ev = None) evs.

(** The events end with a failed instance query, the only one, and the
    result is the error [wrap] makes of its failure, with no instances. *)
Definition failsWith (wrap : string → string) (evs : list Event)
    (r : GoResult (list InstanceImpl)) : Prop :=
  ∃ pre ev err,
    evs = pre ++ [ev] ∧ noFailure pre ∧ failedQuery ev = Some err
    ∧ r = ([], Some (wrap err)).

(** How a run of discovery ends, given the events it added: with a failed
    query as the last event and its error as the result, or without any
    failed query. *)
Definition endsWell {S} (wrap : string → string)
    (e : Exec S (GoResult (list InstanceImpl))) (evs : list Event) : Prop :=
  match e with
  | Done (r, None) _ => noFailure evs
  | Done (r, Some err) _ => failsWith wrap evs (r, Some err)
  | OutOfFuel _ => noFailure evs
  | Panic _ => False
  end.

(** The two layers of context an instance-query failure gets on its way out
    of [Discover]. *)
Definition wrapDiscover (err : string) : string :=
  Errorf "failed to get instances" (Errorf "failed to describe instances" err).


(** The shape of each step of the loops of [Discover]: run a computation,
    return with its error, given context by [g], or go on with its value. *)
Definition andThen {S} (g : string → string)
    (e : Exec S (GoResult (list InstanceImpl)))
    (k : list InstanceImpl → M S (GoResult (list InstanceImpl)))
  : Exec S (GoResult (list InstanceImpl)) :=
  match e with
  | Done (r, None) w => k r w
  | Done (_, Some err) w => Done ([], Some (g err)) w
  | Panic w => Panic w
  | OutOfFuel w => OutOfFuel w
  end.

(** From world [w], the run [e] added events and ended well. *)
Definition Ends {S} (wrap : string → string) (w : World S)
    (e : Exec S (GoResult (list InstanceImpl))) : Prop :=
  ∃ evs, calls (world_of e) = calls w ++ evs ∧ endsWell wrap e evs.

(** From world [w], the run [e] left the slice [filters] valid and holding
    [base], and the events it added are the calls of a prefix of the queries
    [qs], of all of them if it returned without error. *)
Definition Keeps {S} (filters : slice) (base : list ec2types.Filter)
    (qs : list Query) (w : World S)
    (e : Exec S (GoResult (list InstanceImpl))) : Prop :=
  ∃ evs,
    calls (world_of e) = calls w ++ evs
    ∧ valid (heap (world_of e)) filters
    ∧ elems (heap (world_of e)) filters = base
    ∧ (∃ qs', qs' `prefix_of` qs ∧ Served qs' evs)
    ∧ (∀ r w', e = Done (r, None) w' → Served qs evs).

(** ** Instance state

    [getInstanceState] reads, of each instance of a [DescribeInstances]
    output, its id and its state; [status] holds that view of the SDK's
    types. *)
Module status.

Inductive InstanceStateName :=
| InstanceStateNamePending
| InstanceStateNameRunning
| InstanceStateNameShuttingDown
| InstanceStateNameTerminated
| InstanceStateNameStopping
| InstanceStateNameStopped.

Record InstanceState := { Name : InstanceStateName }.

Record Instance := { InstanceId : string; State : option InstanceState }.

Record Reservation := { Instances : list Instance }.

Record DescribeInstancesOutput := { Reservations : list Reservation }.

End status.

(** The inner loop of [getInstanceState]: the state to return, if the loop
    returns. *)
Fixpoint getInstanceState_instances (instances : list status.Instance)
    (instanceID : string) : option status.InstanceStateName :=
  match instances with
  | [] => None
  | instance :: instances =>
      if String.eqb (status.InstanceId instance) instanceID then
        match status.State instance with
        | Some state => Some (status.Name state)
        | None => getInstanceState_instances instances instanceID
        end
      else getInstanceState_instances instances instanceID
  end.

(** The outer loop of [getInstanceState]. *)
Fixpoint getInstanceState_reservations (reservations : list status.Reservation)
    (instanceID : string) : option status.InstanceStateName :=
  match reservations with
  | [] => None
  | reservation :: reservations =>
      match getInstanceState_instances (status.Instances reservation) instanceID with
      | Some name => Some name
      | None => getInstanceState_reservations reservations instanceID
      end
  end.

Definition getInstanceState (result : status.DescribeInstancesOutput)
    (instanceID : string) : status.InstanceStateName :=
  match getInstanceState_reservations (status.Reservations result) instanceID with
  | Some name => name
  | None => status.InstanceStateNamePending
  end.

(** All instances of an output, in order. *)
Definition statusInstances (result : status.DescribeInstancesOutput)
  : list status.Instance :=
  reservation ← status.Reservations result; status.Instances reservation.

(** The state an instance reports for an id: its own, when it has that id
    and a state. *)
Definition reportedState (instanceID : string) (instance : status.Instance)
  : option status.InstanceStateName :=
  if decide (status.InstanceId instance = instanceID)
  then status.Name <$> status.State instance
  else None.

(** ** A service that never stops paging

    Every answer of [DescribeInstances] is one instance and the same
    continuation token. *)
Module endless.

Definition DescribeInstances (input : ec2.DescribeInstancesInput)
    (regionID : string) (s : unit)
  : Result ec2.DescribeInstancesOutput * unit :=
  (Ok (sim.page ["i-1"] (Some "again")), s).

Definition api : ec2.Client unit :=
  {| ec2.DescribeInstances := DescribeInstances;
     ec2.DescribeRegions := λ _ s, (Ok {| ec2.Regions := [] |}, s);
     ec2.RunInstances := λ _ _ s, (Err "no capacity", s) |}.

Definition client : Client unit :=
  {| ec2Client := api; awsConfig := awsConfig sim.client |}.

Definition world : World unit := {| heap := []; calls := []; service := tt |}.

End endless.

(** ** A service that is down

    Every operation fails. *)
Module down.

Definition api : ec2.Client unit :=
  {| ec2.DescribeInstances := λ _ _ s, (Err "ServiceUnavailable", s);
     ec2.DescribeRegions := λ _ s, (Err "ServiceUnavailable", s);
     ec2.RunInstances := λ _ _ s, (Err "ServiceUnavailable", s) |}.

Definition client : Client unit :=
  {| ec2Client := api; awsConfig := awsConfig sim.client |}.

Definition world : World unit := {| heap := []; calls := []; service := tt |}.

(** The scope of all regions, as the API has it. *)
Definition allRegions : models.AwsScanScope :=
  {| models.AllRegions := Some true;
     models.Regions := None;
     models.ShouldScanStoppedInstances := None;
     models.InstanceTagSelector := None;
     models.InstanceTagExclusion := None |}.

End down.

(** ** Answers to the queries of a discovery

    The service, from state [s], answers the queries in order, each with a
    list of pages of at most [fuel] pages after the first; [insts] are the
    surviving instances of all the pages, in order. *)
Inductive Answered {S} (c : Client S) (maxResults : Z) (fuel : nat)
    (excludeTags : list Tag)
  : list Query → S → list InstanceImpl → S → Prop :=
| Answered_nil s : Answered c maxResults fuel excludeTags [] s [] s
| Answered_cons regionID filters qs s pages s1 rest s' :
    Paging c maxResults filters regionID None s pages s1 →
    length pages ≤ Datatypes.S fuel →
    Answered c maxResults fuel excludeTags qs s1 rest s' →
    Answered c maxResults fuel excludeTags ((regionID, filters) :: qs) s
      ((pages ≫= survivors excludeTags regionID) ++ rest) s'.

(** An instance query among the events. *)
Definition isInstanceQuery (ev : Event) : bool :=
  match ev with
  | EvDescribeInstances _ _ _ _ => true
  | _ => false
  end.

(** ** The REST handlers of scan estimations

    The handlers of the API server for scan estimations, over the table of
    the database layer.  A handler binds the request body, calls the table
    and answers through [sendError] or [sendResponse]; what it returns is
    the answer it sends.  Errors of the table are told apart as the handlers
    do: by [errors.Is] with [ErrNotFound] and by [errors.As] with the two
    error types. *)
Module database.

Record ScanEstimation (Payload : Type) :=
  { Id : option string; content : Payload }.
Arguments Id {Payload} _.
Arguments content {Payload} _.

(** The table [ScanEstimationsTable] of a database with state [DB] and
    errors [E]. *)
Record ScanEstimationsTable
    (DB E Payload Estimations GetParams GetOneParams PatchParams PutParams : Type) :=
  { GetScanEstimations : GetParams → DB → (Estimations + E) * DB;
    GetScanEstimation :
      string → GetOneParams → DB → (ScanEstimation Payload + E) * DB;
    CreateScanEstimation :
      ScanEstimation Payload → DB → (ScanEstimation Payload + E) * DB;
    UpdateScanEstimation :
      ScanEstimation Payload → PatchParams → DB → (ScanEstimation Payload + E) * DB;
    SaveScanEstimation :
      ScanEstimation Payload → PutParams → DB → (ScanEstimation Payload + E) * DB;
    DeleteScanEstimation : string → DB → option E * DB;
    (** [err.Error()] *)
    Error : E → string;
    (** [errors.Is(err, databaseTypes.ErrNotFound)] *)
    IsErrNotFound : E → bool;
    (** [errors.As(err, &validationErr)], a [*common.BadRequestError] *)
    AsBadRequestError : E → bool;
    (** [errors.As(err, &preconditionFailedErr)], a
        [*databaseTypes.PreconditionFailedError] *)
    AsPreconditionFailedError : E → bool }.
Arguments GetScanEstimations {_ _ _ _ _ _ _ _} _ _ _.
Arguments GetScanEstimation {_ _ _ _ _ _ _ _} _ _ _ _.
Arguments CreateScanEstimation {_ _ _ _ _ _ _ _} _ _ _.
Arguments UpdateScanEstimation {_ _ _ _ _ _ _ _} _ _ _ _.
Arguments SaveScanEstimation {_ _ _ _ _ _ _ _} _ _ _ _.
Arguments DeleteScanEstimation {_ _ _ _ _ _ _ _} _ _ _.
Arguments Error {_ _ _ _ _ _ _ _} _ _.
Arguments IsErrNotFound {_ _ _ _ _ _ _ _} _ _.
Arguments AsBadRequestError {_ _ _ _ _ _ _ _} _ _.
Arguments AsPreconditionFailedError {_ _ _ _ _ _ _ _} _ _.

(** The errors of the database layer, for a table to test with. *)
Inductive DbError :=
| ErrNotFound
| BadRequestError (reason : string)
| PreconditionFailedError (reason : string)
| OtherError (message : string).

(** A table without any record: reads, updates and deletions find nothing,
    a creation gives back what it is given. *)
Definition emptyTable
  : ScanEstimationsTable unit DbError string (list (ScanEstimation string))
      unit unit unit unit :=
  {| GetScanEstimations := λ _ db, (inl [], db);
     GetScanEstimation := λ _ _ db, (inr ErrNotFound, db);
     CreateScanEstimation := λ scanEstimation db, (inl scanEstimation, db);
     UpdateScanEstimation := λ _ _ db, (inr ErrNotFound, db);
     SaveScanEstimation := λ _ _ db, (inr ErrNotFound, db);
     DeleteScanEstimation := λ _ db, (Some ErrNotFound, db);
     Error := λ err,
       match err with
       | ErrNotFound => "not found"
       | BadRequestError reason | PreconditionFailedError reason => reason
       | OtherError message => message
       end;
     IsErrNotFound := λ err, match err with ErrNotFound => true | _ => false end;
     AsBadRequestError :=
       λ err, match err with BadRequestError _ => true | _ => false end;
     AsPreconditionFailedError :=
       λ err, match err with PreconditionFailedError _ => true | _ => false end |}.

End database.

Module http.

Definition StatusOK : Z := 200.
Definition StatusCreated : Z := 201.
Definition StatusBadRequest : Z := 400.
Definition StatusNotFound : Z := 404.
Definition StatusPreconditionFailed : Z := 412.
Definition StatusInternalServerError : Z := 500.

End http.

Module rest.

Section Server.
Context {DB E Payload Estimations GetParams GetOneParams PatchParams PutParams : Type}.

Local Abbreviation ScanEstimation := (database.ScanEstimation Payload).
Local Abbreviation Table :=
  (database.ScanEstimationsTable DB E Payload Estimations
     GetParams GetOneParams PatchParams PutParams).

(** What a handler sends. *)
Inductive Body :=
| BodyScanEstimations (items : Estimations)
| BodyScanEstimation (scanEstimation : ScanEstimation)
| BodySuccess (message : string).

Inductive Reply :=
| sendError (code : Z) (message : string)
| sendResponse (code : Z) (object : Body).

(** The calls of the table, in order. *)
Inductive DbCall :=
| CallGetScanEstimations (params : GetParams)
| CallGetScanEstimation (id : string) (params : GetOneParams)
| CallCreateScanEstimation (scanEstimation : ScanEstimation)
| CallUpdateScanEstimation (scanEstimation : ScanEstimation) (params : PatchParams)
| CallSaveScanEstimation (scanEstimation : ScanEstimation) (params : PutParams)
| CallDeleteScanEstimation (id : string).

(** The server: the table, the state of the database and the calls made. *)
Record ServerImpl :=
  { dbHandler : Table; db : DB; dbCalls : list DbCall }.

Definition called (s : ServerImpl) (call : DbCall) (db' : DB) : ServerImpl :=
  {| dbHandler := dbHandler s; db := db'; dbCalls := dbCalls s ++ [call] |}.

(** The request context: what [ctx.Bind] gives. *)
Record Context := { Bind : Result ScanEstimation }.

Definition GetScanEstimations (s : ServerImpl) (params : GetParams)
  : Reply * ServerImpl :=
  let '(r, db') := database.GetScanEstimations (dbHandler s) params (db s) in
  let s := called s (CallGetScanEstimations params) db' in
  match r with
  | inr err =>
      (sendError http.StatusInternalServerError
         ("failed to get scan estimations from db: "
          +:+ database.Error (dbHandler s) err), s)
  | inl scanEstimations =>
      (sendResponse http.StatusOK (BodyScanEstimations scanEstimations), s)
  end.

Definition PostScanEstimations (s : ServerImpl) (ctx : Context)
  : Reply * ServerImpl :=
  match Bind ctx with
  | Err err =>
      (sendError http.StatusBadRequest ("failed to bind request: " +:+ err), s)
  | Ok scanEstimation =>
      let '(r, db') :=
        database.CreateScanEstimation (dbHandler s) scanEstimation (db s) in
      let s := called s (CallCreateScanEstimation scanEstimation) db' in
      let Error := database.Error (dbHandler s) in
      match r with
      | inr err =>
          if database.AsBadRequestError (dbHandler s) err
          then (sendError http.StatusBadRequest (Error err), s)
          else (sendError http.StatusInternalServerError
                  ("failed to create scan estimation in db: " +:+ Error err), s)
      | inl createdScanEstimation =>
          (sendResponse http.StatusCreated (BodyScanEstimation createdScanEstimation), s)
      end
  end.

Definition DeleteScanEstimationsScanEstimationID (s : ServerImpl)
    (scanEstimationID : string) : Reply * ServerImpl :=
  let success := BodySuccess ("scan estimation " +:+ scanEstimationID +:+ " deleted") in
  let '(r, db') :=
    database.DeleteScanEstimation (dbHandler s) scanEstimationID (db s) in
  let s := called s (CallDeleteScanEstimation scanEstimationID) db' in
  match r with
  | Some err =>
      if database.IsErrNotFound (dbHandler s) err
      then (sendError http.StatusNotFound
              ("ScanEstimation with ID " +:+ scanEstimationID +:+ " not found"), s)
      else (sendError http.StatusInternalServerError
              ("failed to delete scan estimation from db. scanEstimationID="
               +:+ scanEstimationID +:+ ": "
               +:+ database.Error (dbHandler s) err), s)
  | None => (sendResponse http.StatusOK success, s)
  end.

Definition GetScanEstimationsScanEstimationID (s : ServerImpl)
    (scanEstimationID : string) (params : GetOneParams) : Reply * ServerImpl :=
  let '(r, db') :=
    database.GetScanEstimation (dbHandler s) scanEstimationID params (db s) in
  let s := called s (CallGetScanEstimation scanEstimationID params) db' in
  match r with
  | inr err =>
      if database.IsErrNotFound (dbHandler s) err
      then (sendError http.StatusNotFound
              ("ScanEstimation with ID " +:+ scanEstimationID +:+ " not found"), s)
      else (sendError http.StatusInternalServerError
              ("failed to get scan estimation from db. id="
               +:+ scanEstimationID +:+ ": "
               +:+ database.Error (dbHandler s) err), s)
  | inl scanEstimation =>
      (sendResponse http.StatusOK (BodyScanEstimation scanEstimation), s)
  end.

(** The check both [PATCH] and [PUT] make on the bound body: its id, when it
    has one, is the id of the URL. *)
Definition idMismatch (scanEstimation : ScanEstimation) (scanEstimationID : string)
  : option string :=
  match database.Id scanEstimation with
  | Some id => if negb (String.eqb id scanEstimationID) then Some id else None
  | None => None
  end.

Definition PatchScanEstimationsScanEstimationID (s : ServerImpl) (ctx : Context)
    (scanEstimationID : string) (params : PatchParams) : Reply * ServerImpl :=
  match Bind ctx with
  | Err err =>
      (sendError http.StatusBadRequest ("failed to bind request: " +:+ err), s)
  | Ok scanEstimation =>
      match idMismatch scanEstimation scanEstimationID with
      | Some id =>
          (sendError http.StatusBadRequest
             ("id in body " +:+ id +:+ " does not match object "
              +:+ scanEstimationID +:+ " to be updated"), s)
      | None =>
          let scanEstimation :=
            {| database.Id := Some scanEstimationID;
               database.content := database.content scanEstimation |} in
          let '(r, db') :=
            database.UpdateScanEstimation (dbHandler s)
              scanEstimation params (db s) in
          let s := called s (CallUpdateScanEstimation scanEstimation params) db' in
          let Error := database.Error (dbHandler s) in
          match r with
          | inr err =>
              if database.IsErrNotFound (dbHandler s) err then
                (sendError http.StatusNotFound
                   ("ScanEstimation with ID " +:+ scanEstimationID +:+ " not found"), s)
              else if database.AsBadRequestError (dbHandler s) err then
                (sendError http.StatusBadRequest (Error err), s)
              else if database.AsPreconditionFailedError (dbHandler s) err then
                (sendError http.StatusPreconditionFailed (Error err), s)
              else
                (sendError http.StatusInternalServerError
                   ("failed to update scan estimation in db. scanEstimationID="
                    +:+ scanEstimationID +:+ ": " +:+ Error err), s)
          | inl updatedScanEstimation =>
              (sendResponse http.StatusOK (BodyScanEstimation updatedScanEstimation), s)
          end
      end
  end.

Definition PutScanEstimationsScanEstimationID (s : ServerImpl) (ctx : Context)
    (scanEstimationID : string) (params : PutParams) : Reply * ServerImpl :=
  match Bind ctx with
  | Err err =>
      (sendError http.StatusBadRequest ("failed to bind request: " +:+ err), s)
  | Ok scanEstimation =>
      match idMismatch scanEstimation scanEstimationID with
      | Some id =>
          (sendError http.StatusBadRequest
             ("id in body " +:+ id +:+ " does not match object "
              +:+ scanEstimationID +:+ " to be updated"), s)
      | None =>
          let scanEstimation :=
            {| database.Id := Some scanEstimationID;
               database.content := database.content scanEstimation |} in
          let '(r, db') :=
            database.SaveScanEstimation (dbHandler s)
              scanEstimation params (db s) in
          let s := called s (CallSaveScanEstimation scanEstimation params) db' in
          let Error := database.Error (dbHandler s) in
          match r with
          | inr err =>
              if database.IsErrNotFound (dbHandler s) err then
                (sendError http.StatusNotFound
                   ("ScanEstimation with ID " +:+ scanEstimationID +:+ " not found"), s)
              else if database.AsBadRequestError (dbHandler s) err then
                (sendError http.StatusBadRequest (Error err), s)
              else if database.AsPreconditionFailedError (dbHandler s) err then
                (sendError http.StatusPreconditionFailed (Error err), s)
              else
                (sendError http.StatusInternalServerError
                   ("failed to save scan estimation in db. scanEstimationID="
                    +:+ scanEstimationID +:+ ": " +:+ Error err), s)
          | inl updatedScanEstimation =>
              (sendResponse http.StatusOK (BodyScanEstimation updatedScanEstimation), s)
          end
      end
  end.

(** The status code of an answer. *)
Definition code (reply : Reply) : Z :=
  match reply with
  | sendError code _ | sendResponse code _ => code
  end.

End Server.

End rest.

(** The handle [RunScanningJob] makes of a successful launch: that of the
    first instance, when there is one and it has an id, a placement and an
    availability zone. *)
Definition launchedHandle (region : string) (out : ec2.RunInstancesOutput)
  : option InstanceImpl :=
  match ec2.Instances out with
  | [] => None
  | instance :: _ =>
      instanceId ← ec2types.LaunchedInstanceId instance;
      placement ← ec2types.Placement_ instance;
      availabilityZone ← ec2types.AvailabilityZone placement;
      Some {| inst_id := instanceId;
              inst_region := region;
              inst_availabilityZone := availabilityZone |}
  end.

(** A job configuration without key pair. *)
Definition jobConfig : ScanningJobConfig :=
  {| ScannerImage := "img"; ScannerCLIConfig := "cfg";
     VMClarityAddress := "addr"; ScanResultID := "r-1"; KeyPairName := "" |}.

(** * Properties *)

(** ** Loops *)

Lemma range_loop_insert_from {A B} (f : A → B) (l : list A) (z : B) (pre : list B) :
  foldl (λ acc ix, <[ ix.1 := f ix.2 ]> acc)
        (pre ++ replicate (length l) z)
        (zip (seq (length pre) (length l)) l)
  = pre ++ (f <$> l).
Proof.
  revert pre. induction l as [|x l IH]; intros pre; simpl.
  - done.
  - rewrite insert_app_r_alt by lia.
    replace (length pre - length pre) with 0 by lia. simpl.
    specialize (IH (pre ++ [f x])).
    rewrite length_app in IH. simpl in IH.
    replace (length pre + 1) with (Datatypes.S (length pre)) in IH by lia.
    rewrite <- !app_assoc in IH. simpl in IH. exact IH.
Qed.

Lemma range_loop_insert {A B} (f : A → B) (l : list A) (z : B) :
  range_loop (λ acc i x, <[ i := f x ]> acc) l (replicate (length l) z) = f <$> l.
Proof.
  unfold range_loop. exact (range_loop_insert_from f l z []).
Qed.

Lemma foldl_snoc_map {A B} (f : A → B) (l : list A) (pre : list B) :
  foldl (λ acc x, acc ++ [f x]) pre l = pre ++ (f <$> l).
Proof.
  revert pre. induction l as [|x l IH]; intros pre; simpl.
  - by rewrite app_nil_r.
  - rewrite IH, <- app_assoc. done.
Qed.

(** ** Scope conversion and filter compilation *)

Lemma getVPCSecurityGroupsIDs_map vpc :
  getVPCSecurityGroupsIDs vpc = sg_id <$> securityGroups vpc.
Proof. unfold getVPCSecurityGroupsIDs. apply range_loop_insert. Qed.

Lemma convertTags_map tags :
  convertTags (Some tags)
  = (λ tag, {| Key := models.Key tag; Val := models.Value tag |}) <$> tags.
Proof. unfold convertTags. apply (foldl_snoc_map _ tags []). Qed.

Lemma convertSecurityGroups_map sgs :
  convertSecurityGroups (Some sgs)
  = (λ sg, {| sg_id := models.Id sg |}) <$> sgs.
Proof.
  unfold convertSecurityGroups.
  apply (range_loop_insert (λ sg, {| sg_id := models.Id sg |})).
Qed.

(** C6: the tag-inclusion filters are, tag by tag and in order, the filter
    named "tag:" followed by the key, with the tag's value as its only
    value; there is no other filter. *)
Theorem createInclusionTagsFilters_spec (tags : list Tag) :
  createInclusionTagsFilters tags
  = (λ tag, {| ec2types.Name := Some ("tag:" +:+ Key tag);
               ec2types.Values := [Val tag] |}) <$> tags.
Proof.
  unfold createInclusionTagsFilters.
  apply (foldl_snoc_map
           (λ tag, {| ec2types.Name := Some ("tag:" +:+ Key tag);
                      ec2types.Values := [Val tag] |}) tags []).
Qed.

(** C7: the instance-state filters are one filter named
    instance-state-name, with the values running, and stopped after it
    exactly when stopped instances are scanned; no other state occurs. *)
Theorem createInstanceStateFilters_spec (scanStopped : bool) :
  createInstanceStateFilters scanStopped
  = [ {| ec2types.Name := Some "instance-state-name";
         ec2types.Values := if scanStopped then ["running"; "stopped"]
                            else ["running"] |} ]
  ∧ Forall (λ f, Forall (λ v, v = "running" ∨ (scanStopped = true ∧ v = "stopped"))
                        (ec2types.Values f))
           (createInstanceStateFilters scanStopped).
Proof.
  split.
  - by destruct scanStopped.
  - destruct scanStopped; simpl.
    + repeat (apply Forall_cons; split); try apply Forall_nil; auto.
    + repeat (apply Forall_cons; split); try apply Forall_nil; auto.
Qed.

(** C8: the filters of a VPC are the vpc-id filter with the VPC's id as its
    only value, followed, exactly when the VPC has security groups, by the
    instance.group-id filter with the ids of all its security groups. *)
Theorem createVPCFilters_spec (vpc : VPC) :
  createVPCFilters vpc
  = {| ec2types.Name := Some "vpc-id"; ec2types.Values := [vpc_id vpc] |}
    :: match securityGroups vpc with
       | [] => []
       | _ :: _ =>
           [ {| ec2types.Name := Some "instance.group-id";
                ec2types.Values := sg_id <$> securityGroups vpc |} ]
       end.
Proof.
  unfold createVPCFilters. rewrite getVPCSecurityGroupsIDs_map.
  by destruct (securityGroups vpc).
Qed.

(** ** Tag exclusion *)

Lemma instanceTagsMap_from (m : gmap string string) (tags : list ec2types.Tag) k :
  foldl (λ m tag, <[ ec2types.Key tag := ec2types.Value tag ]> m) m tags !! k
  = match lastValue k tags with
    | Some v => Some v
    | None => m !! k
    end.
Proof.
  revert m. induction tags as [|tag tags IH]; intros m; simpl; [done|].
  rewrite IH. destruct (lastValue k tags); [done|].
  rewrite lookup_insert. by destruct (decide (ec2types.Key tag = k)).
Qed.

Lemma instanceTagsMap_lookup (tags : list ec2types.Tag) k :
  instanceTagsMap tags !! k = lastValue k tags.
Proof.
  unfold instanceTagsMap. rewrite instanceTagsMap_from.
  by destruct (lastValue k tags).
Qed.

Lemma lastValue_elem k v (tags : list ec2types.Tag) :
  lastValue k tags = Some v →
  {| ec2types.Key := k; ec2types.Value := v |} ∈ tags.
Proof.
  induction tags as [|tag tags IH]; simpl; [done|].
  destruct (lastValue k tags) as [v'|].
  - intros [= ->]. right. by apply IH.
  - destruct (decide (ec2types.Key tag = k)) as [<-|]; [|done].
    intros [= <-]. destruct tag. left.
Qed.

Lemma lastValue_None k (tags : list ec2types.Tag) :
  lastValue k tags = None ↔ k ∉ ec2types.Key <$> tags.
Proof.
  induction tags as [|tag tags IH]; simpl.
  - split; [intros _; apply not_elem_of_nil | done].
  - rewrite not_elem_of_cons. destruct (lastValue k tags).
    + split; [done|]. intros [_ Hn]. by apply IH in Hn.
    + destruct (decide (ec2types.Key tag = k)) as [<-|].
      * split; [done|]. by intros [? _].
      * split; [|done]. intros _. split; [done|]. by apply IH.
Qed.

Lemma lastValue_NoDup k v (tags : list ec2types.Tag) :
  NoDup (ec2types.Key <$> tags) →
  lastValue k tags = Some v ↔ {| ec2types.Key := k; ec2types.Value := v |} ∈ tags.
Proof.
  intros Hnd. split; [apply lastValue_elem|].
  induction tags as [|tag tags IH]; [by intros ?%elem_of_nil|].
  simpl in Hnd. apply NoDup_cons in Hnd as [Hfresh Hnd].
  intros [<-|Hin]%elem_of_cons; simpl.
  - simpl in Hfresh. apply lastValue_None in Hfresh. rewrite Hfresh.
    by destruct (decide (k = k)).
  - by rewrite (IH Hnd Hin).
Qed.

Lemma allExcludeTagsIn_true m (excludeTags : list Tag) :
  allExcludeTagsIn m excludeTags = true
  ↔ ∀ tag, tag ∈ excludeTags → m !! Key tag = Some (Val tag).
Proof.
  induction excludeTags as [|tag rest IH]; simpl.
  - split; [|done]. by intros _ tag ?%elem_of_nil.
  - destruct (m !! Key tag) as [val|] eqn:Hm.
    + destruct (String.eqb val (Val tag)) eqn:Heq; simpl.
      * apply String.eqb_eq in Heq as ->. rewrite IH. split.
        -- intros H t [->|Hin]%elem_of_cons; [done|by apply H].
        -- intros H t Hin. apply H. by right.
      * apply String.eqb_neq in Heq. split; [done|].
        intros H. specialize (H tag (list_elem_of_here _ _)).
        rewrite Hm in H. congruence.
    + split; [done|]. intros H. specialize (H tag (list_elem_of_here _ _)).
      rewrite Hm in H. congruence.
Qed.

Lemma hasExcludeTags_true (excludeTags : list Tag) (instanceTags : list ec2types.Tag) :
  hasExcludeTags excludeTags instanceTags = true
  ↔ excludeTags ≠ [] ∧ instanceTags ≠ []
    ∧ ∀ tag, tag ∈ excludeTags →
             lastValue (Key tag) instanceTags = Some (Val tag).
Proof.
  unfold hasExcludeTags.
  destruct excludeTags as [|e es]; [simpl; split; [done | by intros [? _]]|].
  destruct instanceTags as [|t ts]; [simpl; split; [done | by intros (_ & ? & _)]|].
  change (length (e :: es) =? 0) with false.
  change (length (t :: ts) =? 0) with false. cbv iota.
  rewrite allExcludeTagsIn_true.
  setoid_rewrite instanceTagsMap_lookup.
  split; [intros H; by repeat split | by intros (_ & _ & H)].
Qed.

(** C2: for an instance whose tags have pairwise distinct keys, as the tags
    of an EC2 instance have, the instance is excluded if and only if
    [excludeTags] is not empty, the instance has tags, and every pair of
    [excludeTags] is among the instance's tags, key and value; so an empty
    [excludeTags] excludes nothing, an instance without tags is never
    excluded, and one pair of [excludeTags] that is not among the tags, for
    its key or for its value, keeps the instance. *)
Theorem hasExcludeTags_spec (excludeTags : list Tag) (instanceTags : list ec2types.Tag) :
  NoDup (ec2types.Key <$> instanceTags) →
  (hasExcludeTags excludeTags instanceTags = true
   ↔ excludeTags ≠ [] ∧ instanceTags ≠ []
     ∧ ∀ tag, tag ∈ excludeTags →
              {| ec2types.Key := Key tag; ec2types.Value := Val tag |}
              ∈ instanceTags)
  ∧ hasExcludeTags [] instanceTags = false
  ∧ hasExcludeTags excludeTags [] = false
  ∧ ∀ tag, tag ∈ excludeTags →
           {| ec2types.Key := Key tag; ec2types.Value := Val tag |} ∉ instanceTags →
           hasExcludeTags excludeTags instanceTags = false.
Proof.
  intros Hnd.
  assert (Hiff : hasExcludeTags excludeTags instanceTags = true
                 ↔ excludeTags ≠ [] ∧ instanceTags ≠ []
                   ∧ ∀ tag, tag ∈ excludeTags →
                            {| ec2types.Key := Key tag; ec2types.Value := Val tag |}
                            ∈ instanceTags).
  { rewrite hasExcludeTags_true.
    by setoid_rewrite (lastValue_NoDup _ _ _ Hnd). }
  split; [exact Hiff|]. split; [done|]. split.
  - unfold hasExcludeTags. by destruct (length excludeTags =? 0).
  - intros tag Htag Hnot. apply not_true_is_false. rewrite Hiff.
    intros (_ & _ & Hall). by apply Hnot, Hall.
Qed.

Lemma hasExcludeTags_spec_witness :
  hasExcludeTags [ {| Key := "env"; Val := "prod" |} ]
    [ {| ec2types.Key := "env"; ec2types.Value := "prod" |};
      {| ec2types.Key := "team"; ec2types.Value := "sec" |} ] = true
  ∧ hasExcludeTags [ {| Key := "env"; Val := "prod" |}; {| Key := "team"; Val := "ops" |} ]
      [ {| ec2types.Key := "env"; ec2types.Value := "prod" |};
        {| ec2types.Key := "team"; ec2types.Value := "sec" |} ] = false.
Proof.
  assert (Hnd : NoDup (ec2types.Key <$>
                         [ {| ec2types.Key := "env"; ec2types.Value := "prod" |};
                           {| ec2types.Key := "team"; ec2types.Value := "sec" |} ])).
  { simpl. apply NoDup_cons. split.
    - intros H%list_elem_of_singleton. discriminate H.
    - apply NoDup_singleton. }
  split.
  - apply (proj1 (hasExcludeTags_spec [ {| Key := "env"; Val := "prod" |} ] _ Hnd)).
    split; [done|]. split; [done|].
    intros tag ->%list_elem_of_singleton. simpl. left.
  - apply (proj2 (proj2 (proj2 (hasExcludeTags_spec
             [ {| Key := "env"; Val := "prod" |}; {| Key := "team"; Val := "ops" |} ]
             _ Hnd)))
             {| Key := "team"; Val := "ops" |}).
    + apply list_elem_of_further, list_elem_of_here.
    + simpl. intros H. apply elem_of_cons in H as [H|H]; [discriminate H|].
      apply list_elem_of_singleton in H. discriminate H.
Defined.

(** ** Slices *)

Section SliceFacts.
Context {A : Type} (zero : A) (growcap : growth).
Implicit Types (h : list (list A)) (s t : slice) (xs : list A).

Lemma valid_nil h : valid h nil_slice.
Proof. by split. Qed.

Lemma elems_nil h : elems h nil_slice = [].
Proof. done. Qed.

Lemma valid_backing h s : valid h s → len s ≤ length (backing h s).
Proof.
  intros [Hle Harr]. unfold backing. destruct (arr s) as [a|].
  - destruct Harr as (l & -> & Hl). simpl. lia.
  - simpl. lia.
Qed.

Lemma length_elems h s : valid h s → length (elems h s) = len s.
Proof.
  intros Hv. unfold elems. apply length_take_le. by apply valid_backing.
Qed.

(** The result of [append] holds the old elements followed by the new. *)
Lemma append_elems h s xs :
  valid h s →
  elems (append zero growcap s xs h).2 (append zero growcap s xs h).1
  = elems h s ++ xs.
Proof.
  intros Hv. pose proof (valid_backing _ _ Hv) as Hb.
  destruct Hv as [Hle Harr]. unfold append.
  destruct (len s + length xs <=? cap s) eqn:Hfit.
  - apply Nat.leb_le in Hfit. unfold elems, backing in *.
    destruct (arr s) as [a|] eqn:Ha; simpl.
    + destruct Harr as (l & Hl & Hlen). rewrite Hl in *. simpl in *.
      rewrite list_lookup_insert_eq by by eapply lookup_lt_Some. simpl.
      unfold write_at. rewrite app_assoc, take_app_le.
      * apply take_ge. rewrite length_app, length_take_le by lia. lia.
      * rewrite length_app, length_take_le by lia. lia.
    + assert (length xs = 0) as Hxs%nil_length_inv by lia. subst xs.
      by rewrite Ha, app_nil_r.
  - simpl. unfold elems at 1, backing at 1. simpl.
    rewrite lookup_app_r, Nat.sub_diag by lia. simpl.
    rewrite app_assoc. apply take_app_length'.
    rewrite length_app. f_equal. unfold elems. symmetry. by apply length_take_le.
Qed.

(** [append] keeps every valid slice header valid. *)
Lemma append_valid_other h s xs t :
  valid h s → valid h t → valid (append zero growcap s xs h).2 t.
Proof.
  intros [Hle Harr] [Hlet Harrt]. split; [done|].
  destruct (arr t) as [b|]; [|done].
  destruct Harrt as (lt & Hlt & Hlent).
  unfold append. destruct (len s + length xs <=? cap s) eqn:Hfit.
  - apply Nat.leb_le in Hfit. destruct (arr s) as [a|] eqn:Ha; simpl; [|eauto].
    destruct Harr as (l & Hl & Hlen).
    destruct (decide (a = b)) as [->|Hne].
    + rewrite list_lookup_insert_eq by by eapply lookup_lt_Some.
      eexists; split; [done|]. unfold backing. rewrite Ha, Hl. simpl.
      unfold write_at. rewrite !length_app, length_take_le, length_drop by lia.
      rewrite Hl in Hlt. injection Hlt as <-. lia.
    + rewrite list_lookup_insert_ne by done. eauto.
  - simpl. exists lt. split; [|done]. by apply lookup_app_l_Some.
Qed.

(** The result of [append] is valid, given that the runtime allocates
    enough. *)
Lemma append_valid h s xs :
  (∀ oldCap newLen, newLen ≤ growcap oldCap newLen) →
  valid h s → valid (append zero growcap s xs h).2 (append zero growcap s xs h).1.
Proof.
  intros Hgrow Hv. pose proof Hv as [Hle Harr]. unfold append.
  destruct (len s + length xs <=? cap s) eqn:Hfit.
  - apply Nat.leb_le in Hfit. destruct (arr s) as [a|] eqn:Ha; simpl.
    + split; [simpl; lia|]. simpl.
      destruct Harr as (l & Hl & Hlen).
      rewrite list_lookup_insert_eq by by eapply lookup_lt_Some.
      eexists; split; [done|]. unfold backing. rewrite Ha, Hl. simpl.
      unfold write_at. rewrite !length_app, length_take_le, length_drop by lia.
      lia.
    + split; [done|]. by rewrite Ha.
  - simpl. split; simpl; [apply Hgrow|].
    rewrite lookup_app_r, Nat.sub_diag by lia. simpl.
    eexists; split; [done|].
    rewrite !length_app, length_replicate, length_elems by done.
    specialize (Hgrow (cap s) (len s + length xs)). lia.
Qed.

(** [append] leaves the elements of a slice as they are, unless the slice
    shares the argument's backing array and reaches beyond its length. *)
Lemma append_elems_other h s xs t :
  valid h s → valid h t →
  arr t ≠ arr s ∨ len t ≤ len s →
  elems (append zero growcap s xs h).2 t = elems h t.
Proof.
  intros Hv Hvt Hsep. pose proof Hv as [Hle Harr]. pose proof Hvt as [Hlet Harrt].
  unfold append. destruct (len s + length xs <=? cap s) eqn:Hfit.
  - apply Nat.leb_le in Hfit. destruct (arr s) as [a|] eqn:Ha; simpl; [|done].
    destruct Harr as (l & Hl & Hlen).
    unfold elems, backing. destruct (arr t) as [b|] eqn:Hb; [|done].
    destruct (decide (a = b)) as [->|Hne].
    + destruct Hsep as [Hsep|Hsep]; [done|].
      rewrite list_lookup_insert_eq by by eapply lookup_lt_Some.
      rewrite Ha, Hl. simpl. unfold write_at.
      rewrite take_app_le by (rewrite length_take_le; lia).
      rewrite take_take. f_equal. lia.
    + by rewrite list_lookup_insert_ne.
  - simpl. unfold elems, backing. destruct (arr t) as [b|]; [|done].
    destruct Harrt as (lt & Hlt & _). by rewrite (lookup_app_l_Some _ _ _ _ Hlt), Hlt.
Qed.

Lemma append_elems_self h s xs :
  valid h s → elems (append zero growcap s xs h).2 s = elems h s.
Proof. intros Hv. apply append_elems_other; auto. Qed.

End SliceFacts.

(** ** Pagination *)

Lemma getInstances_reservation excludeTags regionID
    (instances : list ec2types.Instance) (ret : list InstanceImpl) :
  foldl (λ ret instance,
           if hasExcludeTags excludeTags (ec2types.Tags instance)
           then ret
           else ret ++ [ {| inst_id := ec2types.InstanceId instance;
                            inst_region := regionID;
                            inst_availabilityZone := "" |} ])
        ret instances
  = ret ++ ((λ instance, {| inst_id := ec2types.InstanceId instance;
                            inst_region := regionID;
                            inst_availabilityZone := "" |})
              <$> filter (λ instance,
                            hasExcludeTags excludeTags (ec2types.Tags instance) = false)
                         instances).
Proof.
  revert ret. induction instances as [|i instances IH]; intros ret; simpl.
  - by rewrite app_nil_r.
  - rewrite IH.
    destruct (hasExcludeTags excludeTags (ec2types.Tags i)) eqn:Hx.
    + rewrite filter_cons_False; [done | by rewrite Hx].
    + rewrite filter_cons_True by done. by rewrite <- app_assoc.
Qed.

Lemma getInstances_reservations excludeTags regionID
    (reservations : list ec2types.Reservation) (ret : list InstanceImpl) :
  foldl (λ ret reservation,
           foldl (λ ret instance,
                    if hasExcludeTags excludeTags (ec2types.Tags instance)
                    then ret
                    else ret ++ [ {| inst_id := ec2types.InstanceId instance;
                                     inst_region := regionID;
                                     inst_availabilityZone := "" |} ])
                 ret (ec2types.Instances reservation))
        ret reservations
  = ret ++ survivors excludeTags regionID
             {| ec2.Reservations := reservations; ec2.NextToken_ := None |}.
Proof.
  unfold survivors. simpl.
  revert ret. induction reservations as [|r rs IH]; intros ret.
  - by rewrite app_nil_r.
  - simpl. rewrite IH, getInstances_reservation, <- app_assoc. done.
Qed.

Lemma getInstancesFromDescribeInstancesOutput_survivors out excludeTags regionID :
  getInstancesFromDescribeInstancesOutput out excludeTags regionID
  = survivors excludeTags regionID out.
Proof.
  unfold getInstancesFromDescribeInstancesOutput.
  by rewrite getInstances_reservations.
Qed.

Lemma Paging_nonempty {S} (c : Client S) maxResults elements regionID token s pages s' :
  Paging c maxResults elements regionID token s pages s' → pages ≠ [].
Proof. by destruct 1. Qed.

Lemma length_pageCalls maxResults filters elements regionID token pages :
  length (pageCalls maxResults filters elements regionID token pages) = length pages.
Proof.
  revert token. induction pages as [|out pages IH]; intros token; simpl; [done|].
  by rewrite IH.
Qed.

Lemma survivors_ids excludeTags regionID pages :
  inst_id <$> (pages ≫= survivors excludeTags regionID) `sublist_of` pageIds pages.
Proof.
  unfold pageIds. induction pages as [|out pages IH]; [done|].
  simpl. rewrite fmap_app. apply sublist_app; [|done].
  unfold survivors. clear IH.
  induction (ec2.Reservations out) as [|r rs IH]; [done|].
  simpl. rewrite fmap_app. apply sublist_app; [|done].
  rewrite <- list_fmap_compose. simpl.
  apply fmap_sublist, sublist_filter.
Qed.

Section Pagination.
Context {S : Type} (maxResults : Z) (c : Client S).

Lemma GetInstances_pages_run fuel filters excludeTags regionID :
  ∀ pages out ret w s' token,
    ec2.NextToken_ out = Some token →
    Paging c maxResults (elems (heap w) filters) regionID (Some token) (service w) pages s' →
    length pages ≤ fuel →
    GetInstances_pages maxResults fuel c filters excludeTags regionID out ret w
    = Done (ret ++ (pages ≫= survivors excludeTags regionID), None)
        {| heap := heap w;
           calls := calls w ++ pageCalls maxResults filters (elems (heap w) filters)
                                 regionID (Some token) pages;
           service := s' |}.
Proof.
  induction fuel as [|fuel IH]; intros pages out ret w s' token Htok Hpages Hlen.
  - apply Paging_nonempty in Hpages. destruct pages; [done|simpl in Hlen; lia].
  - simpl. rewrite Htok. unfold bind, callDescribeInstances.
    inversion Hpages as [? ? out1 ? Hcall Hlast | ? ? out1 next s1 outs ? Hcall Hnext Hrest];
      subst; rewrite Hcall.
    + rewrite getInstancesFromDescribeInstancesOutput_survivors.
      destruct fuel; simpl; rewrite Hlast; unfold mreturn; by rewrite app_nil_r.
    + rewrite getInstancesFromDescribeInstancesOutput_survivors.
      erewrite IH; [| exact Hnext | exact Hrest | simpl in Hlen; lia ].
      simpl. rewrite Hnext. by rewrite <- !app_assoc.
Qed.

End Pagination.

(** C3: when the service answers a query with a list of pages, each but the
    last carrying a continuation token, [GetInstances] returns, without
    error, the surviving instances of all pages in order, every one as often
    as the pages hold it (so without repetition when the pages repeat no
    instance); the calls it made are exactly one per page, with the same
    filters and region throughout and, after the first, the token of the
    page before; the last page, which has no token, is followed by no
    call. *)
Theorem GetInstances_paginates {S : Type} (maxResults : Z) (c : Client S)
    (fuel : nat) (filters : slice) (excludeTags : list Tag) (regionID : string)
    (w : World S) (pages : list ec2.DescribeInstancesOutput) (s' : S) :
  Paging c maxResults (elems (heap w) filters) regionID None (service w) pages s' →
  length pages ≤ Datatypes.S fuel →
  GetInstances maxResults fuel c filters excludeTags regionID w
  = Done (pages ≫= survivors excludeTags regionID, None)
      {| heap := heap w;
         calls := calls w ++ pageCalls maxResults filters (elems (heap w) filters)
                               regionID None pages;
         service := s' |}
  ∧ length (pageCalls maxResults filters (elems (heap w) filters) regionID None pages)
    = length pages
  ∧ (NoDup (pageIds pages) → NoDup (pages ≫= survivors excludeTags regionID)).
Proof.
  intros Hpages Hlen. split; [|split].
  - unfold GetInstances, bind, callDescribeInstances.
    inversion Hpages as [? ? out1 ? Hcall Hlast | ? ? out1 next s1 outs ? Hcall Hnext Hrest];
      subst; rewrite Hcall; rewrite getInstancesFromDescribeInstancesOutput_survivors.
    + destruct fuel; simpl; rewrite Hlast; unfold mreturn; by rewrite app_nil_r.
    + erewrite GetInstances_pages_run;
        [| exact Hnext | exact Hrest | simpl in Hlen; lia ].
      simpl. rewrite Hnext. by rewrite <- !app_assoc.
  - apply length_pageCalls.
  - intros Hnd. apply (NoDup_fmap_1 inst_id).
    eapply sublist_NoDup; [exact Hnd | apply survivors_ids].
Qed.

(** ** Event traces *)

Lemma noFailure_app evs1 evs2 :
  noFailure evs1 → noFailure evs2 → noFailure (evs1 ++ evs2).
Proof. apply Forall_app_2. Qed.

Lemma failsWith_app wrap pre evs r :
  noFailure pre → failsWith wrap evs r → failsWith wrap (pre ++ evs) r.
Proof.
  intros Hpre (pre' & ev & err & -> & Hpre' & Hev & ->).
  exists (pre ++ pre'), ev, err. rewrite app_assoc.
  split; [done|]. split; [by apply noFailure_app|done].
Qed.

Lemma endsWell_app {S} wrap (e : Exec S (GoResult (list InstanceImpl))) pre evs :
  noFailure pre → endsWell wrap e evs → endsWell wrap e (pre ++ evs).
Proof.
  intros Hpre. destruct e as [[r [err|]] w| |]; simpl;
    auto using noFailure_app, failsWith_app.
Qed.

Lemma failsWith_last wrap evs r ev err :
  failsWith wrap evs r → ev ∈ evs → failedQuery ev = Some err →
  r = ([], Some (wrap err)) ∧ ∃ pre, evs = pre ++ [ev] ∧ noFailure pre.
Proof.
  intros (pre & ev' & err' & -> & Hpre & Hev' & ->) Hin Hev.
  apply elem_of_app in Hin as [Hin|Hin%list_elem_of_singleton].
  - unfold noFailure in Hpre. rewrite Forall_forall in Hpre.
    apply Hpre in Hin. congruence.
  - subst ev'. assert (err' = err) as -> by congruence. eauto.
Qed.

Lemma noFailure_elem evs ev err :
  noFailure evs → ev ∈ evs → failedQuery ev = Some err → False.
Proof.
  unfold noFailure. rewrite Forall_forall. intros H Hin Hev.
  apply H in Hin. congruence.
Qed.

Lemma Served_app qs1 qs2 evs1 evs2 :
  Served qs1 evs1 → Served qs2 evs2 → Served (qs1 ++ qs2) (evs1 ++ evs2).
Proof.
  induction 1 as [|q qs evs rest Hne Hall Hrest IH]; intros H2; simpl; [done|].
  rewrite <- app_assoc. constructor; auto.
Qed.

Lemma Served_one q evs :
  evs ≠ [] → Forall (callOf q) evs → Served [q] evs.
Proof.
  intros Hne Hall. rewrite <- (app_nil_r evs). constructor; [done|done|constructor].
Qed.

Section Traces.
Context {S : Type} (maxResults : Z) (c : Client S).

Lemma bind_andThen (g : string → string)
    (m : M S (GoResult (list InstanceImpl)))
    (k : list InstanceImpl → M S (GoResult (list InstanceImpl))) w :
  (r <~ m ;;
   match r with
   | (_, Some err) => mreturn ([], Some (g err))
   | (x, None) => k x
   end) w
  = andThen g (m w) k.
Proof. unfold bind, andThen. by destruct (m w) as [[r [err|]] w'| |]. Qed.

(** One query: the calls of [GetInstances]. *)
Lemma GetInstances_pages_calls fuel filters excludeTags regionID :
  ∀ out ret w,
    let e := GetInstances_pages maxResults fuel c filters excludeTags regionID out ret w in
    ∃ evs,
      calls (world_of e) = calls w ++ evs
      ∧ heap (world_of e) = heap w
      ∧ Forall (callOf (regionID, elems (heap w) filters)) evs
      ∧ endsWell (Errorf "failed to describe instances") e evs.
Proof.
  induction fuel as [|fuel IH]; intros out ret w; simpl.
  - destruct (ec2.NextToken_ out); exists []; rewrite app_nil_r;
      repeat split; by constructor.
  - destruct (ec2.NextToken_ out) as [token|].
    2:{ exists []. rewrite app_nil_r. repeat split; by constructor. }
    unfold bind, callDescribeInstances.
    destruct (ec2.DescribeInstances _ _ _ _) as [[out1|err] s1] eqn:Hcall.
    + match goal with
      | |- context [GetInstances_pages _ _ _ _ _ _ ?o ?r ?w1] =>
          destruct (IH o r w1) as (evs & Hcalls & Hheap & Hall & Hend)
      end.
      simpl in *. eexists (_ :: evs). rewrite Hcalls, <- app_assoc.
      split; [done|]. split; [done|]. split.
      * constructor; [by split|done].
      * apply (endsWell_app _ _ [_]); [|done]. by repeat constructor.
    + simpl. eexists [_]. split; [done|]. split; [done|]. split.
      * by repeat constructor.
      * eexists [], _, err. split; [done|]. split; [constructor|]. done.
Qed.

Lemma GetInstances_calls fuel filters excludeTags regionID w :
  let e := GetInstances maxResults fuel c filters excludeTags regionID w in
  ∃ evs,
    calls (world_of e) = calls w ++ evs
    ∧ heap (world_of e) = heap w
    ∧ evs ≠ []
    ∧ Forall (callOf (regionID, elems (heap w) filters)) evs
    ∧ endsWell (Errorf "failed to describe instances") e evs.
Proof.
  unfold GetInstances, bind, callDescribeInstances.
  destruct (ec2.DescribeInstances _ _ _ _) as [[out1|err] s1] eqn:Hcall.
  - match goal with
    | |- context [GetInstances_pages _ _ _ _ _ _ ?o ?r ?w1] =>
        destruct (GetInstances_pages_calls fuel filters excludeTags regionID o r w1)
          as (evs & Hcalls & Hheap & Hall & Hend)
    end.
    simpl in *. eexists (_ :: evs). rewrite Hcalls, <- app_assoc.
    split; [done|]. split; [done|]. split; [done|]. split.
    + constructor; [by split|done].
    + apply (endsWell_app _ _ [_]); [|done]. by repeat constructor.
  - simpl. eexists [_]. split; [done|]. split; [done|]. split; [done|]. split.
    + by repeat constructor.
    + eexists [], _, err. split; [done|]. split; [constructor|]. done.
Qed.

End Traces.

(** ** The loops of [Discover] *)

Section Loops.
Context {S : Type} (growcap : growth) (maxResults : Z) (c : Client S).
Context (fuel : nat) (filters : slice) (excludeTags : list Tag).

Local Abbreviation GetInstances' := (GetInstances maxResults fuel c).
Local Abbreviation Discover_vpcs' :=
  (Discover_vpcs growcap maxResults fuel c filters excludeTags).
Local Abbreviation Discover_regions' :=
  (Discover_regions growcap maxResults fuel c filters excludeTags).

Lemma Discover_vpcs_cons regionName vpc vpcs ret w :
  Discover_vpcs' regionName (vpc :: vpcs) ret w
  = let sh := append zeroFilter growcap filters (createVPCFilters vpc) (heap w) in
    andThen (Errorf "failed to get instances")
      (GetInstances' sh.1 excludeTags regionName
         {| heap := sh.2; calls := calls w; service := service w |})
      (λ instances, Discover_vpcs' regionName vpcs (ret ++ instances)).
Proof.
  simpl. unfold bind at 1. unfold go_append.
  destruct (append _ _ _ _ _) as [fs h1]. simpl.
  unfold bind, andThen. by destruct (GetInstances' _ _ _ _) as [[r [err|]] w'| |].
Qed.

Lemma Discover_regions_cons region regions ret w :
  Discover_regions' (region :: regions) ret w
  = if length (vpcs region) =? 0
    then andThen (Errorf "failed to get instances")
           (GetInstances' filters excludeTags (name region) w)
           (λ instances, Discover_regions' regions (ret ++ instances))
    else andThen (λ err, err)
           (Discover_vpcs' (name region) (vpcs region) ret w)
           (λ ret, Discover_regions' regions ret).
Proof.
  simpl. destruct (length (vpcs region) =? 0); unfold bind, andThen.
  - by destruct (GetInstances' _ _ _ _) as [[r [err|]] w'| |].
  - by destruct (Discover_vpcs' _ _ _ _) as [[r [err|]] w'| |].
Qed.

(** *** How the loops end *)

Lemma Ends_return wrap ret (w : World S) : Ends wrap w (Done (ret, None) w).
Proof. exists []. rewrite app_nil_r. split; [done|constructor]. Qed.

Lemma Ends_calls wrap (w1 w : World S) e :
  calls w1 = calls w → Ends wrap w1 e → Ends wrap w e.
Proof. unfold Ends. by intros ->. Qed.

Lemma Ends_andThen g wrap1 wrap (w : World S) e k :
  (∀ err, g (wrap1 err) = wrap err) →
  Ends wrap1 w e →
  (∀ r w', Ends wrap w' (k r w')) →
  Ends wrap w (andThen g e k).
Proof.
  intros Hwrap (evs & Hcalls & Hend) Hk.
  destruct e as [[r [err|]] w1|w1|w1]; simpl in *.
  - exists evs. split; [done|].
    destruct Hend as (pre & ev & err0 & -> & Hpre & Hev & [= -> ->]).
    exists pre, ev, err0. by rewrite Hwrap.
  - destruct (Hk r w1) as (evs2 & Hcalls2 & Hend2).
    exists (evs ++ evs2). rewrite Hcalls2, Hcalls, <- app_assoc.
    split; [done|]. by apply endsWell_app.
  - done.
  - by exists evs.
Qed.

Lemma GetInstances_Ends fs regionID w :
  Ends (Errorf "failed to describe instances") w
       (GetInstances' fs excludeTags regionID w).
Proof.
  destruct (GetInstances_calls maxResults c fuel fs excludeTags regionID w)
    as (evs & Hcalls & _ & _ & _ & Hend).
  by exists evs.
Qed.

Lemma Discover_vpcs_Ends regionName vpcs :
  ∀ ret w, Ends wrapDiscover w (Discover_vpcs' regionName vpcs ret w).
Proof.
  induction vpcs as [|vpc vpcs IH]; intros ret w.
  - apply Ends_return.
  - rewrite Discover_vpcs_cons. cbv zeta.
    eapply (Ends_calls _ {| heap := _; calls := calls w; service := service w |});
      [done|].
    eapply Ends_andThen with (wrap1 := Errorf "failed to describe instances");
      [done | apply GetInstances_Ends | intros; apply IH].
Qed.

Lemma Discover_regions_Ends regions :
  ∀ ret w, Ends wrapDiscover w (Discover_regions' regions ret w).
Proof.
  induction regions as [|region regions IH]; intros ret w.
  - apply Ends_return.
  - rewrite Discover_regions_cons. destruct (length (vpcs region) =? 0).
    + eapply Ends_andThen with (wrap1 := Errorf "failed to describe instances");
        [done | apply GetInstances_Ends | intros; apply IH].
    + eapply Ends_andThen with (wrap1 := wrapDiscover);
        [done | apply Discover_vpcs_Ends | intros; apply IH].
Qed.

End Loops.

(** *** What the loops do to the base filters *)

Section BaseFilters.
Context {S : Type} (growcap : growth) (maxResults : Z) (c : Client S).
Context (fuel : nat) (filters : slice) (excludeTags : list Tag).
Context (base : list ec2types.Filter).

Local Abbreviation GetInstances' := (GetInstances maxResults fuel c).
Local Abbreviation Discover_vpcs' :=
  (Discover_vpcs growcap maxResults fuel c filters excludeTags).
Local Abbreviation Discover_regions' :=
  (Discover_regions growcap maxResults fuel c filters excludeTags).

Lemma Keeps_return ret (w : World S) :
  valid (heap w) filters → elems (heap w) filters = base →
  Keeps filters base [] w (Done (ret, None) w).
Proof.
  intros Hv He. exists []. rewrite app_nil_r.
  split; [done|]. split; [done|]. split; [done|]. split.
  - exists []. split; [done|constructor].
  - intros _ _ _. constructor.
Qed.

Lemma Keeps_calls qs (w1 w : World S) e :
  calls w1 = calls w → Keeps filters base qs w1 e → Keeps filters base qs w e.
Proof. unfold Keeps. by intros ->. Qed.

Lemma Keeps_andThen g qs1 qs2 (w : World S) e k :
  Keeps filters base qs1 w e →
  (∀ r w', valid (heap w') filters → elems (heap w') filters = base →
           Keeps filters base qs2 w' (k r w')) →
  Keeps filters base (qs1 ++ qs2) w (andThen g e k).
Proof.
  intros (evs & Hcalls & Hv & He & (qs' & Hpre & Hserved) & Hfull) Hk.
  destruct e as [[r [err|]] w1|w1|w1]; simpl in *.
  - exists evs. do 3 (split; [done|]). split; [|done].
    exists qs'. split; [by apply prefix_app_r|done].
  - destruct (Hk r w1 Hv He)
      as (evs2 & Hcalls2 & Hv2 & He2 & (qs2' & Hpre2 & Hserved2) & Hfull2).
    specialize (Hfull _ _ eq_refl).
    exists (evs ++ evs2). rewrite Hcalls2, Hcalls, <- app_assoc.
    do 3 (split; [done|]). split.
    + exists (qs1 ++ qs2'). split; [by apply prefix_app|by apply Served_app].
    + intros r' w' Hdone. apply Served_app; [done|]. by eapply Hfull2.
  - exists evs. do 3 (split; [done|]). split; [|done].
    exists qs'. split; [by apply prefix_app_r|done].
  - exists evs. do 3 (split; [done|]). split; [|done].
    exists qs'. split; [by apply prefix_app_r|done].
Qed.

Lemma GetInstances_Keeps fs regionID (w : World S) :
  valid (heap w) filters → elems (heap w) filters = base →
  Keeps filters base [(regionID, elems (heap w) fs)] w
        (GetInstances' fs excludeTags regionID w).
Proof.
  intros Hv He.
  destruct (GetInstances_calls maxResults c fuel fs excludeTags regionID w)
    as (evs & Hcalls & Hheap & Hne & Hall & _).
  exists evs. rewrite Hheap. do 3 (split; [done|]).
  pose proof (Served_one _ _ Hne Hall) as Hserved. split; [|done].
  by exists [(regionID, elems (heap w) fs)].
Qed.

(** Within a region, each VPC is asked for with the base filters followed by
    its own; the slice of the base filters keeps its elements. *)
Lemma Discover_vpcs_Keeps regionName vpcs :
  ∀ ret (w : World S),
    valid (heap w) filters → elems (heap w) filters = base →
    Keeps filters base
          ((λ vpc, (regionName, base ++ createVPCFilters vpc)) <$> vpcs) w
          (Discover_vpcs' regionName vpcs ret w).
Proof.
  induction vpcs as [|vpc vpcs IH]; intros ret w Hv He.
  - by apply Keeps_return.
  - rewrite Discover_vpcs_cons. cbv zeta.
    eapply (Keeps_calls _ {| heap := _; calls := calls w; service := service w |});
      [done|].
    change (?f <$> vpc :: vpcs) with ([f vpc] ++ (f <$> vpcs)).
    apply Keeps_andThen; [|intros; by apply IH].
    pose proof (append_elems zeroFilter growcap (heap w) filters
                  (createVPCFilters vpc) Hv) as Hq.
    rewrite He in Hq. simpl. rewrite <- Hq.
    apply (GetInstances_Keeps _ regionName
             {| heap := _; calls := calls w; service := service w |}); simpl.
    + by apply append_valid_other.
    + rewrite <- He. by apply append_elems_self.
Qed.

Lemma Discover_regions_Keeps regions :
  ∀ ret (w : World S),
    valid (heap w) filters → elems (heap w) filters = base →
    Keeps filters base (queriesOf base regions) w
          (Discover_regions' regions ret w).
Proof.
  induction regions as [|region regions IH]; intros ret w Hv He.
  - by apply Keeps_return.
  - rewrite Discover_regions_cons.
    change (queriesOf base (region :: regions))
      with ((if length (vpcs region) =? 0 then [(name region, base)]
             else (λ vpc, (name region, base ++ createVPCFilters vpc)) <$> vpcs region)
            ++ queriesOf base regions).
    destruct (length (vpcs region) =? 0).
    + apply Keeps_andThen; [|intros; by apply IH].
      rewrite <- He at 2. by apply GetInstances_Keeps.
    + apply Keeps_andThen; [|intros; by apply IH].
      by apply Discover_vpcs_Keeps.
Qed.

End BaseFilters.

(** ** [Discover] *)

Section DiscoverFacts.
Context {S : Type} (growcap : growth) (maxResults : Z).
Context {ScanScopeType : Type}.
Context (AsAwsScanScope : ScanScopeType → Result models.AwsScanScope).
Context (c : Client S) (fuel : nat).

Lemma Discover_filters_run scope (w : World S) :
  ∃ filters h,
    Discover_filters growcap scope w
    = Done filters {| heap := h; calls := calls w; service := service w |}
    ∧ ((∀ oldCap newLen, newLen ≤ growcap oldCap newLen) →
       valid h filters ∧ elems h filters = baseFilters scope).
Proof.
  unfold Discover_filters, bind, go_append.
  pose proof (append_elems zeroFilter growcap (heap w) nil_slice
                (createInclusionTagsFilters (TagSelector scope)) (valid_nil _)) as He1.
  pose proof (λ Hgrow, append_valid zeroFilter growcap (heap w) nil_slice
                (createInclusionTagsFilters (TagSelector scope)) Hgrow (valid_nil _)) as Hv1.
  destruct (append zeroFilter growcap nil_slice _ (heap w)) as [f1 h1]. simpl in *.
  pose proof (append_elems zeroFilter growcap h1 f1
                (createInstanceStateFilters (ScanStopped scope))) as He2.
  pose proof (λ Hgrow, append_valid zeroFilter growcap h1 f1
                (createInstanceStateFilters (ScanStopped scope)) Hgrow) as Hv2.
  destruct (append zeroFilter growcap f1 _ h1) as [f2 h2]. simpl in *.
  exists f2, h2. split; [done|]. intros Hgrow. split.
  - apply Hv2; auto.
  - rewrite He2 by auto. unfold baseFilters. by rewrite He1.
Qed.

(** The tail of [Discover], once the regions are known. *)
Lemma Discover_scan_Ends scope regions ret (w : World S) :
  Ends wrapDiscover w
    ((filters <~ Discover_filters growcap scope ;;
      Discover_regions growcap maxResults fuel c filters (ExcludeTags scope) regions ret) w).
Proof.
  unfold bind.
  destruct (Discover_filters_run scope w) as (filters & h & -> & _).
  eapply Ends_calls; [|apply Discover_regions_Ends]. done.
Qed.

Lemma ListAllRegions_run (w : World S) :
  ListAllRegions c w
  = let input := {| ec2.AllRegions := None |} in
    let r := ec2.DescribeRegions (ec2Client c) input (service w) in
    let w1 := {| heap := heap w;
                 calls := calls w ++ [EvDescribeRegions input r.1];
                 service := r.2 |} in
    match r.1 with
    | Ok out =>
        Done ((λ region, {| name := ec2types.RegionName region; vpcs := [] |})
                <$> ec2.Regions out, None) w1
    | Err err => Done ([], Some (Errorf "failed to describe regions" err)) w1
    end.
Proof.
  unfold ListAllRegions, bind, callDescribeRegions. cbv zeta.
  destruct (ec2.DescribeRegions _ _ _) as [[out|err] s1]; simpl; [|done].
  unfold mreturn. do 2 f_equal.
  apply (foldl_snoc_map
           (λ region, {| name := ec2types.RegionName region; vpcs := [] |})
           (ec2.Regions out) []).
Qed.

Lemma Discover_unfold scanScope (w : World S) :
  Discover growcap maxResults AsAwsScanScope fuel c scanScope w
  = match AsAwsScanScope scanScope with
    | Err err => Done ([], Some (Errorf "failed to convert as aws scope" err)) w
    | Ok awsScanScope =>
        let scope := convertScope awsScanScope in
        match getRegionsToScan c scope w with
        | Done (regions, None) w1 =>
            if length regions =? 0
            then Done ([], Some "no regions to scan") w1
            else (filters <~ Discover_filters growcap scope ;;
                  Discover_regions growcap maxResults fuel c filters
                    (ExcludeTags scope) regions []) w1
        | Done (_, Some err) w1 =>
            Done ([], Some (Errorf "failed to get regions to scan" err)) w1
        | Panic w1 => Panic w1
        | OutOfFuel w1 => OutOfFuel w1
        end
    end.
Proof.
  unfold Discover. destruct (AsAwsScanScope scanScope) as [aws|err]; [|done].
  cbv zeta. unfold bind at 1.
  destruct (getRegionsToScan c (convertScope aws) w) as [[regions [err|]] w1| |];
    try done.
  by destruct (length regions =? 0).
Qed.

(** [Discover] ends with a failed instance query as its last call and that
    failure as its error, or without any failed instance query. *)
Lemma Discover_ends scanScope (w : World S) :
  let e := Discover growcap maxResults AsAwsScanScope fuel c scanScope w in
  ∃ evs,
    calls (world_of e) = calls w ++ evs
    ∧ match e with
      | Done r _ => noFailure evs ∨ failsWith wrapDiscover evs r
      | OutOfFuel _ => noFailure evs
      | Panic _ => False
      end.
Proof.
  assert (Hshape : ∀ pre w1 (e : Exec S (GoResult (list InstanceImpl))),
             noFailure pre → calls w1 = calls w ++ pre → Ends wrapDiscover w1 e →
             ∃ evs, calls (world_of e) = calls w ++ evs
                    ∧ match e with
                      | Done r _ => noFailure evs ∨ failsWith wrapDiscover evs r
                      | OutOfFuel _ => noFailure evs
                      | Panic _ => False
                      end).
  { intros pre w1 e Hpre Hw1 (evs & Hcalls & Hend).
    exists (pre ++ evs). rewrite Hcalls, Hw1, <- app_assoc. split; [done|].
    apply (endsWell_app _ _ pre) in Hend; [|done].
    destruct e as [[r [err|]] w2| |]; simpl in *; auto. }
  cbv zeta. rewrite Discover_unfold.
  destruct (AsAwsScanScope scanScope) as [aws|err].
  2:{ exists []. rewrite app_nil_r. split; [done|]. left. constructor. }
  cbv zeta. unfold getRegionsToScan.
  destruct (AllRegions (convertScope aws)).
  - rewrite ListAllRegions_run. cbv zeta.
    destruct (ec2.DescribeRegions _ _ _) as [[out|err] s1]; simpl fst; simpl snd;
      cbv iota.
    + match goal with |- context [length ?l =? 0] => destruct (length l =? 0) end.
      * eexists [_]. split; [done|]. left. by repeat constructor.
      * eapply (Hshape [_]); [ | | apply Discover_scan_Ends ];
          [ | simpl; reflexivity ].
        by repeat constructor.
    + eexists [_]. split; [done|]. left. by repeat constructor.
  - unfold mreturn. destruct (length (Regions (convertScope aws)) =? 0).
    + exists []. rewrite app_nil_r. split; [done|]. left. constructor.
    + eapply (Hshape []); [constructor | | apply Discover_scan_Ends].
      by rewrite app_nil_r.
Qed.

End DiscoverFacts.

(** C5: if an instance query made by [Discover] fails, then [Discover]
    returns, its result holds no instance and the error that wraps the
    failure, and the failed call is its last call: nothing is asked again,
    and no query before it had failed. *)
Theorem Discover_all_or_nothing {S ScanScopeType : Type}
    (growcap : growth) (maxResults : Z)
    (AsAwsScanScope : ScanScopeType → Result models.AwsScanScope)
    (c : Client S) (fuel : nat) (scanScope : ScanScopeType) (w : World S)
    (evs : list Event) (ev : Event) (err : string) :
  let e := Discover growcap maxResults AsAwsScanScope fuel c scanScope w in
  calls (world_of e) = calls w ++ evs →
  ev ∈ evs →
  failedQuery ev = Some err →
  e = Done ([], Some (Errorf "failed to get instances"
                        (Errorf "failed to describe instances" err)))
        (world_of e)
  ∧ ∃ pre, evs = pre ++ [ev] ∧ noFailure pre.
Proof.
  intros e Hcalls Hin Hev.
  destruct (Discover_ends growcap maxResults AsAwsScanScope c fuel scanScope w)
    as (evs' & Hcalls' & Hend).
  fold e in Hcalls', Hend. rewrite Hcalls in Hcalls'.
  apply app_inv_head in Hcalls'. subst evs'.
  destruct e as [r w'|w'|w']; simpl.
  - destruct Hend as [Hno|Hfail].
    + destruct (noFailure_elem _ _ _ Hno Hin Hev).
    + destruct (failsWith_last _ _ _ _ _ Hfail Hin Hev) as [-> Hlast]. done.
  - done.
  - destruct (noFailure_elem _ _ _ Hend Hin Hev).
Qed.

(** ** Region resolution *)

(** C4, as the code has it: with [AllRegions] the client asks the service
    once for its regions, leaving the request's own [AllRegions] option
    unset, and resolves to the regions the service answers with, in its
    order, each without VPCs (or to the wrapped error of the service);
    without [AllRegions] it resolves to the regions of the scope, unchanged,
    and asks nothing. *)
Theorem getRegionsToScan_spec {S : Type} (c : Client S) (scope : ScanScope)
    (w : World S) :
  getRegionsToScan c scope w
  = if AllRegions scope then
      let input := {| ec2.AllRegions := None |} in
      let r := ec2.DescribeRegions (ec2Client c) input (service w) in
      let w1 := {| heap := heap w;
                   calls := calls w ++ [EvDescribeRegions input r.1];
                   service := r.2 |} in
      match r.1 with
      | Ok out =>
          Done ((λ region, {| name := ec2types.RegionName region; vpcs := [] |})
                  <$> ec2.Regions out, None) w1
      | Err err => Done ([], Some (Errorf "failed to describe regions" err)) w1
      end
    else Done (Regions scope, None) w.
Proof.
  unfold getRegionsToScan. destruct (AllRegions scope); [|done].
  apply ListAllRegions_run.
Qed.

(** On the simulated service, the regions resolved for [AllRegions] are the
    enabled ones of the catalog. *)
Lemma getRegionsToScan_sim (scope : ScanScope) (s : sim.State) :
  AllRegions scope = true →
  ∃ w', getRegionsToScan sim.client scope (sim.world s)
        = Done ((λ r, {| name := r.1; vpcs := [] |})
                  <$> filter (λ r, r.2 = true) (sim.catalog s), None) w'.
Proof.
  intros Hall. unfold getRegionsToScan. rewrite Hall, ListAllRegions_run. simpl.
  eexists. do 2 f_equal. by rewrite <- list_fmap_compose.
Qed.

(** C4 as stated fails: for an account with a disabled region, the regions
    resolved for [AllRegions] are not the full catalog; the disabled region
    is missing. *)
Lemma getRegionsToScan_omits_disabled_regions :
  let w := sim.world sim.account in
  let e := getRegionsToScan sim.client sim.everywhere w in
  e = Done ([ {| name := "us-east-1"; vpcs := [] |} ], None) (world_of e)
  ∧ ¬ ∃ w', e = Done ((λ r, {| name := r.1; vpcs := [] |})
                        <$> sim.catalog sim.account, None) w'.
Proof.
  split; [done|]. intros [w' H]. discriminate H.
Qed.

(** ** The base filters during discovery *)

Lemma growcap_double_enough oldCap newLen : newLen ≤ growcap_double oldCap newLen.
Proof.
  unfold growcap_double. destruct (2 * oldCap <? newLen) eqn:H; [lia|].
  apply Nat.ltb_ge in H. lia.
Qed.

(** C1, as the code has it: once the regions to scan are resolved, whatever
    capacity the runtime gives to slices it grows, the calls [Discover] goes
    on to make are those of its queries in order, one query per region
    without VPCs, asked with the base filters, and one per VPC otherwise,
    asked with the base filters followed by the filters of that VPC and
    nothing else (all of the queries if [Discover] returns without error,
    the first ones otherwise); and the slice of the base filters holds the
    base filters when it is built and still does when [Discover] ends. *)
Theorem Discover_base_filters_kept {S ScanScopeType : Type}
    (growcap : growth) (maxResults : Z)
    (AsAwsScanScope : ScanScopeType → Result models.AwsScanScope)
    (c : Client S) (fuel : nat) (scanScope : ScanScopeType)
    (awsScanScope : models.AwsScanScope) (regions : list Region) (w w0 : World S) :
  (∀ oldCap newLen, newLen ≤ growcap oldCap newLen) →
  AsAwsScanScope scanScope = Ok awsScanScope →
  let scope := convertScope awsScanScope in
  getRegionsToScan c scope w = Done (regions, None) w0 →
  regions ≠ [] →
  let e := Discover growcap maxResults AsAwsScanScope fuel c scanScope w in
  let queries := queriesOf (baseFilters scope) regions in
  ∃ filters w1 evs,
    Discover_filters growcap scope w0 = Done filters w1
    ∧ elems (heap w1) filters = baseFilters scope
    ∧ calls (world_of e) = calls w0 ++ evs
    ∧ elems (heap (world_of e)) filters = baseFilters scope
    ∧ (∃ asked, asked `prefix_of` queries ∧ Served asked evs)
    ∧ (∀ r w', e = Done (r, None) w' → Served queries evs).
Proof.
  intros Hgrow Has scope Hresolved Hregions e queries. subst e.
  rewrite Discover_unfold, Has. cbv zeta. fold scope. rewrite Hresolved.
  destruct regions as [|region regions]; [done|].
  change (length (region :: regions) =? 0) with false. cbv iota.
  unfold bind.
  destruct (Discover_filters_run growcap scope w0) as (filters & h & Heq & Hbase).
  destruct (Hbase Hgrow) as [Hv He]. rewrite Heq.
  destruct (Discover_regions_Keeps growcap maxResults c fuel filters
              (ExcludeTags scope) (baseFilters scope) (region :: regions) []
              {| heap := h; calls := calls w0; service := service w0 |} Hv He)
    as (evs & Hcalls & _ & He' & Hasked & Hfull).
  by exists filters, {| heap := h; calls := calls w0; service := service w0 |}, evs.
Qed.

Lemma Discover_base_filters_kept_witness :
  let scope := convertScope sim.twoVpcs in
  let w := sim.world sim.quiet in
  let e := Discover growcap_double 50 sim.asAwsScanScope 0 sim.client sim.twoVpcs w in
  let queries := queriesOf (baseFilters scope) (Regions scope) in
  ∃ filters w1 evs,
    Discover_filters growcap_double scope w = Done filters w1
    ∧ elems (heap w1) filters = baseFilters scope
    ∧ calls (world_of e) = calls w ++ evs
    ∧ elems (heap (world_of e)) filters = baseFilters scope
    ∧ (∃ asked, asked `prefix_of` queries ∧ Served asked evs)
    ∧ (∀ r w', e = Done (r, None) w' → Served queries evs).
Proof.
  apply (Discover_base_filters_kept growcap_double 50 sim.asAwsScanScope
           sim.client 0 sim.twoVpcs sim.twoVpcs
           (Regions (convertScope sim.twoVpcs))
           (sim.world sim.quiet) (sim.world sim.quiet)).
  - apply growcap_double_enough.
  - reflexivity.
  - reflexivity.
  - vm_compute. discriminate.
Defined.

(** C1 as stated fails in its last part: the filter collections of the VPC
    iterations are no independent copies.  With two selected tags the slice
    of the base filters has length 3 and capacity 4, so for a VPC without
    security groups [append] writes the VPC's filter into the spare slot of
    the base filters' own backing array: both VPC queries are made from that
    array, and after the second iteration the collection of the first holds
    the filter of vpc-2. *)
Lemma Discover_vpc_filters_share_storage :
  let scope := convertScope sim.twoVpcs in
  let w := sim.world sim.quiet in
  let filters := {| arr := Some 1; len := 3; cap := 4 |} in
  let e := Discover growcap_double 50 sim.asAwsScanScope 0 sim.client sim.twoVpcs w in
  (∃ w1, Discover_filters growcap_double scope w = Done filters w1)
  ∧ (∃ w', e = Done ([], None) w')
  ∧ ¬ Forall (ownStorage filters) (calls (world_of e))
  ∧ ¬ Forall (intactIn (heap (world_of e))) (calls (world_of e))
  ∧ elems (heap (world_of e)) {| arr := Some 1; len := 4; cap := 4 |}
    = baseFilters scope
      ++ [ {| ec2types.Name := Some "vpc-id"; ec2types.Values := ["vpc-2"] |} ].
Proof.
  intros scope w filters e.
  split; [eexists; vm_compute; reflexivity|].
  split; [eexists; vm_compute; reflexivity|]. split; [|split].
  - intros H. vm_compute in H. apply Forall_cons in H as [H _]. by apply H.
  - intros H. vm_compute in H. apply Forall_cons in H as [H _]. discriminate H.
  - vm_compute. reflexivity.
Qed.

(** ** Examples of pagination and of a failed query *)

Lemma GetInstances_paginates_witness :
  GetInstances 50 2 sim.client nil_slice [] "us-east-1" (sim.world sim.threePages)
  = Done ((λ i, {| inst_id := i; inst_region := "us-east-1";
                   inst_availabilityZone := "" |})
            <$> ["i-1"; "i-2"; "i-3"; "i-4"], None)
      {| heap := [];
         calls := pageCalls 50 nil_slice [] "us-east-1" None
                    [ sim.page ["i-1"; "i-2"] (Some "t1");
                      sim.page ["i-3"] (Some "t2");
                      sim.page ["i-4"] None ];
         service := sim.quiet |}.
Proof.
  refine (proj1 (GetInstances_paginates 50 sim.client 2 nil_slice [] "us-east-1"
                   (sim.world sim.threePages)
                   [ sim.page ["i-1"; "i-2"] (Some "t1");
                     sim.page ["i-3"] (Some "t2");
                     sim.page ["i-4"] None ]
                   sim.quiet _ _)).
  - eapply Paging_more; [reflexivity | reflexivity |].
    eapply Paging_more; [reflexivity | reflexivity |].
    eapply Paging_last; reflexivity.
  - simpl. lia.
Defined.

Lemma Discover_all_or_nothing_witness :
  let e := Discover growcap_double 50 sim.asAwsScanScope 0 sim.client
             sim.twoRegions (sim.world sim.secondFails) in
  let ev := EvDescribeInstances {| arr := Some 0; len := 1; cap := 1 |}
              {| ec2.Filters := createInstanceStateFilters false;
                 ec2.MaxResults := Some 50%Z;
                 ec2.NextToken := None |}
              "eu-west-1" (Err "RequestLimitExceeded") in
  e = Done ([], Some "failed to get instances: failed to describe instances: RequestLimitExceeded")
        (world_of e)
  ∧ ∃ pre, calls (world_of e) = pre ++ [ev] ∧ noFailure pre.
Proof.
  intros e ev.
  apply (Discover_all_or_nothing growcap_double 50 sim.asAwsScanScope sim.client 0
           sim.twoRegions (sim.world sim.secondFails) (calls (world_of e)) ev
           "RequestLimitExceeded").
  - reflexivity.
  - vm_compute. apply list_elem_of_further, list_elem_of_here.
  - reflexivity.
Defined.

(** ** Provisioning *)

Section Provisioning.
Context {S : Type}.
Context (GenerateCloudInit : cloudinit.Data → Result string).
Context (base64_EncodeToString : string → string).
Context (c : Client S).

(** The launch request [RunScanningJob] builds. *)
Lemma RunScanningJob_run region id config (w : World S) :
  RunScanningJob GenerateCloudInit base64_EncodeToString c region id config w
  = match GenerateCloudInit
            {| cloudinit.ScannerCLIConfig := ScannerCLIConfig config;
               cloudinit.ScannerImage := ScannerImage config;
               cloudinit.ServerAddress := VMClarityAddress config;
               cloudinit.ScanResultID := ScanResultID config |} with
    | Err err => Done (None, Some (Errorf "failed to generate cloud-init" err)) w
    | Ok userData =>
        let input :=
          {| ec2.MaxCount := Some 1%Z;
             ec2.MinCount := Some 1%Z;
             ec2.ImageId := Some (AmiID (awsConfig c));
             ec2.InstanceType := ec2types.InstanceTypeT2Large;
             ec2.TagSpecifications :=
               [ {| ec2types.ResourceType_ := ec2types.ResourceTypeInstance;
                    ec2types.Tags_ := createInstanceTags id |};
                 {| ec2types.ResourceType_ := ec2types.ResourceTypeVolume;
                    ec2types.Tags_ := vmclarityTags |} ];
             ec2.UserData := Some (base64_EncodeToString userData);
             ec2.NetworkInterfaces :=
               [ {| ec2types.AssociatePublicIpAddress := Some false;
                    ec2types.DeleteOnTermination := Some true;
                    ec2types.DeviceIndex := Some 0%Z;
                    ec2types.Groups := [SecurityGroupID (awsConfig c)];
                    ec2types.SubnetId := Some (SubnetID (awsConfig c)) |} ];
             ec2.KeyName :=
               if negb (String.eqb (KeyPairName config) "")
               then Some (KeyPairName config) else None |} in
        let r := ec2.RunInstances (ec2Client c) input region (service w) in
        let w1 := {| heap := heap w;
                     calls := calls w ++ [EvRunInstances input region r.1];
                     service := r.2 |} in
        match r.1 with
        | Err err => Done (None, Some (Errorf "failed to run instances" err)) w1
        | Ok out =>
            match launchedHandle region out with
            | Some handle => Done (Some handle, None) w1
            | None => Panic w1
            end
        end
    end.
Proof.
  unfold RunScanningJob. destruct (GenerateCloudInit _) as [userData|err]; [|done].
  cbv zeta. unfold bind, callRunInstances, launchedHandle.
  destruct (ec2.RunInstances _ _ _ _) as [[out|err] s1]; simpl; [|done].
  destruct (ec2.Instances out) as [|instance rest]; [done|].
  destruct (ec2types.LaunchedInstanceId instance) as [instanceId|]; simpl; [|done].
  destruct (ec2types.Placement_ instance) as [placement|]; simpl; [|done].
  by destruct (ec2types.AvailabilityZone placement).
Qed.

End Provisioning.

(** C9: when the bootstrap payload cannot be generated, [RunScanningJob]
    sends nothing; otherwise it sends exactly one launch request, to the
    given region, whose key pair is unset when the configured key-pair name
    is the empty string and is that name otherwise, and which has a tag
    specification for the instance and one for the volume, both holding the
    ownership tag. *)
Theorem RunScanningJob_key_pair {S : Type}
    (GenerateCloudInit : cloudinit.Data → Result string)
    (base64_EncodeToString : string → string)
    (c : Client S) (region id : string) (config : ScanningJobConfig) (w : World S) :
  let e := RunScanningJob GenerateCloudInit base64_EncodeToString c region id config w in
  match GenerateCloudInit
          {| cloudinit.ScannerCLIConfig := ScannerCLIConfig config;
             cloudinit.ScannerImage := ScannerImage config;
             cloudinit.ServerAddress := VMClarityAddress config;
             cloudinit.ScanResultID := ScanResultID config |} with
  | Err _ => calls (world_of e) = calls w
  | Ok _ =>
      ∃ input out,
        calls (world_of e) = calls w ++ [EvRunInstances input region out]
        ∧ ec2.KeyName input
          = (if decide (KeyPairName config = "") then None
             else Some (KeyPairName config))
        ∧ ec2types.ResourceType_ <$> ec2.TagSpecifications input
          = [ec2types.ResourceTypeInstance; ec2types.ResourceTypeVolume]
        ∧ Forall (λ spec, {| ec2types.Key := "Owner"; ec2types.Value := "VMClarity" |}
                          ∈ ec2types.Tags_ spec)
                 (ec2.TagSpecifications input)
  end.
Proof.
  intros e. subst e. rewrite RunScanningJob_run.
  destruct (GenerateCloudInit _) as [userData|err]; [|done].
  cbv zeta.
  destruct (ec2.RunInstances _ _ _ _) as [[out|err] s1]; simpl.
  - eexists _, _. split.
    { by destruct (launchedHandle region out). }
    simpl. split.
    { destruct (decide (KeyPairName config = "")) as [->|Hne]; [done|].
      apply String.eqb_neq in Hne. by rewrite Hne. }
    split; [done|]. repeat constructor.
  - eexists _, _. split; [done|]. simpl. split.
    { destruct (decide (KeyPairName config = "")) as [->|Hne]; [done|].
      apply String.eqb_neq in Hne. by rewrite Hne. }
    split; [done|]. repeat constructor.
Qed.

(** C10: every launch request [RunScanningJob] sends, for any region,
    target id and configuration, tags the instance with Owner=VMClarity and
    with Name set to "vmclarity-scanner-" followed by the target id, and
    tags the volume with Owner=VMClarity; and it sends one whenever the
    bootstrap payload is generated. *)
Theorem RunScanningJob_tags {S : Type}
    (GenerateCloudInit : cloudinit.Data → Result string)
    (base64_EncodeToString : string → string)
    (c : Client S) (region id : string) (config : ScanningJobConfig) (w : World S) :
  let e := RunScanningJob GenerateCloudInit base64_EncodeToString c region id config w in
  match GenerateCloudInit
          {| cloudinit.ScannerCLIConfig := ScannerCLIConfig config;
             cloudinit.ScannerImage := ScannerImage config;
             cloudinit.ServerAddress := VMClarityAddress config;
             cloudinit.ScanResultID := ScanResultID config |} with
  | Err _ => calls (world_of e) = calls w
  | Ok _ =>
      ∃ input out,
        calls (world_of e) = calls w ++ [EvRunInstances input region out]
        ∧ ec2.TagSpecifications input
          = [ {| ec2types.ResourceType_ := ec2types.ResourceTypeInstance;
                 ec2types.Tags_ :=
                   [ {| ec2types.Key := "Owner"; ec2types.Value := "VMClarity" |};
                     {| ec2types.Key := "Name";
                        ec2types.Value := "vmclarity-scanner-" +:+ id |} ] |};
              {| ec2types.ResourceType_ := ec2types.ResourceTypeVolume;
                 ec2types.Tags_ :=
                   [ {| ec2types.Key := "Owner"; ec2types.Value := "VMClarity" |} ] |} ]
  end.
Proof.
  intros e. subst e. rewrite RunScanningJob_run.
  destruct (GenerateCloudInit _) as [userData|err]; [|done].
  cbv zeta.
  destruct (ec2.RunInstances _ _ _ _) as [[out|err] s1]; simpl.
  - eexists _, _. split; [by destruct (launchedHandle region out)|done].
  - by eexists _, _.
Qed.

(** ** Examples *)

Example exclude_matching_instance :
  hasExcludeTags [ {| Key := "env"; Val := "prod" |} ]
    [ {| ec2types.Key := "env"; ec2types.Value := "prod" |};
      {| ec2types.Key := "team"; ec2types.Value := "sec" |} ] = true.
Proof. by vm_compute. Qed.

Example keep_other_value :
  hasExcludeTags [ {| Key := "env"; Val := "prod" |} ]
    [ {| ec2types.Key := "env"; ec2types.Value := "dev" |} ] = false.
Proof. by vm_compute. Qed.

Example keep_untagged :
  hasExcludeTags [ {| Key := "env"; Val := "prod" |} ] [] = false.
Proof. done. Qed.

Example keep_when_one_pair_is_missing :
  hasExcludeTags [ {| Key := "env"; Val := "prod" |}; {| Key := "team"; Val := "sec" |} ]
    [ {| ec2types.Key := "env"; ec2types.Value := "prod" |} ] = false.
Proof. by vm_compute. Qed.

Example vpc_without_security_groups :
  createVPCFilters {| vpc_id := "vpc-1"; securityGroups := [] |}
  = [ {| ec2types.Name := Some "vpc-id"; ec2types.Values := ["vpc-1"] |} ].
Proof. done. Qed.

Example vpc_with_security_group :
  createVPCFilters {| vpc_id := "vpc-2"; securityGroups := [ {| sg_id := "sg-1" |} ] |}
  = [ {| ec2types.Name := Some "vpc-id"; ec2types.Values := ["vpc-2"] |};
      {| ec2types.Name := Some "instance.group-id"; ec2types.Values := ["sg-1"] |} ].
Proof. done. Qed.

Example inclusion_filters_of_two_tags :
  createInclusionTagsFilters
    [ {| Key := "env"; Val := "prod" |}; {| Key := "team"; Val := "sec" |} ]
  = [ {| ec2types.Name := Some "tag:env"; ec2types.Values := ["prod"] |};
      {| ec2types.Name := Some "tag:team"; ec2types.Values := ["sec"] |} ].
Proof. done. Qed.

Example launch_without_key_pair :
  let config := {| ScannerImage := "img"; ScannerCLIConfig := "cfg";
                   VMClarityAddress := "addr"; ScanResultID := "r-1";
                   KeyPairName := "" |} in
  ∃ input out,
    calls (world_of (RunScanningJob (λ _, Ok "payload") (λ s, s) sim.client
                       "us-east-1" "i-1" config (sim.world sim.quiet)))
    = [EvRunInstances input "us-east-1" out]
    ∧ ec2.KeyName input = None.
Proof. by eexists _, _. Qed.

Example launch_with_key_pair :
  let config := {| ScannerImage := "img"; ScannerCLIConfig := "cfg";
                   VMClarityAddress := "addr"; ScanResultID := "r-1";
                   KeyPairName := "k1" |} in
  ∃ input out,
    calls (world_of (RunScanningJob (λ _, Ok "payload") (λ s, s) sim.client
                       "us-east-1" "i-1" config (sim.world sim.quiet)))
    = [EvRunInstances input "us-east-1" out]
    ∧ ec2.KeyName input = Some "k1".
Proof. by eexists _, _. Qed.

(** With a runtime that allocates exactly the length needed, every [append]
    of [Discover] allocates, and the filter collection of each VPC query has
    storage of its own. *)
Example exact_growth_copies :
  let w := sim.world sim.quiet in
  let e := Discover growcap_exact 50 sim.asAwsScanScope 0 sim.client sim.twoVpcs w in
  Forall (ownStorage {| arr := Some 1; len := 3; cap := 3 |}) (calls (world_of e))
  ∧ Forall (intactIn (heap (world_of e))) (calls (world_of e)).
Proof.
  split; vm_compute; repeat constructor; discriminate.
Qed.

(** * Further properties *)

(** ** Scope conversion *)

Lemma convertVPCs_map vs :
  convertVPCs (Some vs)
  = (λ vpc, {| vpc_id := models.VpcId vpc;
               securityGroups := convertSecurityGroups (models.SecurityGroups vpc) |})
      <$> vs.
Proof.
  unfold convertVPCs.
  apply (range_loop_insert
           (λ vpc, {| vpc_id := models.VpcId vpc;
                      securityGroups :=
                        convertSecurityGroups (models.SecurityGroups vpc) |})).
Qed.

Lemma convertRegions_map regions :
  convertRegions (Some regions)
  = (λ region, {| name := models.Name region;
                  vpcs := convertVPCs (models.Vpcs region) |}) <$> regions.
Proof. unfold convertRegions. apply (foldl_snoc_map _ regions []). Qed.

(** X1: [convertScope] keeps every region, VPC, security group and tag of
    the API scope, in order and with the same names, ids, keys and values;
    an absent list becomes the empty list and an absent flag false. *)
Theorem convertScope_spec (scope : models.AwsScanScope) :
  let tag := λ t, {| Key := models.Key t; Val := models.Value t |} in
  let securityGroup := λ sg, {| sg_id := models.Id sg |} in
  let vpc := λ v, {| vpc_id := models.VpcId v;
                     securityGroups :=
                       securityGroup <$> default [] (models.SecurityGroups v) |} in
  let region := λ r, {| name := models.Name r;
                        vpcs := vpc <$> default [] (models.Vpcs r) |} in
  convertScope scope
  = {| AllRegions := default false (models.AllRegions scope);
       Regions := region <$> default [] (models.Regions scope);
       ScanStopped := default false (models.ShouldScanStoppedInstances scope);
       TagSelector := tag <$> default [] (models.InstanceTagSelector scope);
       ExcludeTags := tag <$> default [] (models.InstanceTagExclusion scope) |}.
Proof.
  intros tag securityGroup vpc region.
  assert (Hsg : ∀ sgs, convertSecurityGroups sgs = securityGroup <$> default [] sgs).
  { intros [sgs|]; [apply convertSecurityGroups_map | done]. }
  assert (Hvpc : ∀ vs, convertVPCs vs = vpc <$> default [] vs).
  { intros [vs|]; [|done]. rewrite convertVPCs_map. simpl.
    apply list_fmap_ext. intros _ v _. unfold vpc. by rewrite Hsg. }
  assert (Hregion : ∀ rs, convertRegions rs = region <$> default [] rs).
  { intros [rs|]; [|done]. rewrite convertRegions_map. simpl.
    apply list_fmap_ext. intros _ r _. unfold region. by rewrite Hvpc. }
  assert (Htag : ∀ ts, convertTags ts = tag <$> default [] ts).
  { intros [ts|]; [apply convertTags_map | done]. }
  unfold convertScope. rewrite Hregion, !Htag.
  by destruct (models.AllRegions scope), (models.ShouldScanStoppedInstances scope).
Qed.

(** ** Instance state *)

Lemma getInstanceState_instances_head instances instanceID :
  getInstanceState_instances instances instanceID
  = head (omap (reportedState instanceID) instances).
Proof.
  induction instances as [|i instances IH]; simpl; [done|].
  unfold reportedState at 1.
  destruct (String.eqb_spec (status.InstanceId i) instanceID) as [Heq|Hne].
  - rewrite decide_True by done. destruct (status.State i); simpl; [done|apply IH].
  - rewrite decide_False by done. simpl. apply IH.
Qed.

Lemma getInstanceState_reservations_head reservations instanceID :
  getInstanceState_reservations reservations instanceID
  = head (omap (reportedState instanceID)
               (reservation ← reservations; status.Instances reservation)).
Proof.
  induction reservations as [|r rs IH]; simpl; [done|].
  rewrite omap_app, getInstanceState_instances_head, IH.
  by destruct (omap _ (status.Instances r)).
Qed.

(** X2: [getInstanceState] gives the state of the first instance of the
    output, in reservation order, that has the given id and a state; an
    instance with the id but without a state is passed over; when there is
    no such instance the answer is pending. *)
Theorem getInstanceState_spec (result : status.DescribeInstancesOutput)
    (instanceID : string) :
  getInstanceState result instanceID
  = default status.InstanceStateNamePending
      (head (omap (reportedState instanceID) (statusInstances result))).
Proof.
  unfold getInstanceState, statusInstances.
  rewrite getInstanceState_reservations_head.
  by destruct (head _).
Qed.

(** X3: for an id that no instance of the output has, [getInstanceState]
    answers pending, as it does for an instance that is pending. *)
Theorem getInstanceState_unknown_id (result : status.DescribeInstancesOutput)
    (instanceID : string) :
  instanceID ∉ status.InstanceId <$> statusInstances result →
  getInstanceState result instanceID = status.InstanceStateNamePending.
Proof.
  intros Hnot. unfold getInstanceState.
  rewrite getInstanceState_reservations_head. fold (statusInstances result).
  induction (statusInstances result) as [|i instances IH]; [done|].
  simpl in *. apply not_elem_of_cons in Hnot as [Hne Hnot].
  unfold reportedState at 1. rewrite decide_False by done. by apply IH.
Qed.

Lemma getInstanceState_unknown_id_witness :
  getInstanceState
    {| status.Reservations :=
         [ {| status.Instances :=
                [ {| status.InstanceId := "i-1";
                     status.State :=
                       Some {| status.Name := status.InstanceStateNameRunning |} |} ] |} ] |}
    "i-2"
  = status.InstanceStateNamePending.
Proof.
  apply getInstanceState_unknown_id. simpl.
  intros H%list_elem_of_singleton. discriminate H.
Defined.

(** ** More on tag exclusion *)

(** X4: the order of the exclusion tags, and how often a pair is repeated
    among them, is of no matter: two exclusion lists with the same pairs
    exclude the same instances. *)
Theorem hasExcludeTags_same_pairs (excludeTags excludeTags' : list Tag)
    (instanceTags : list ec2types.Tag) :
  (∀ tag, tag ∈ excludeTags ↔ tag ∈ excludeTags') →
  hasExcludeTags excludeTags instanceTags = hasExcludeTags excludeTags' instanceTags.
Proof.
  intros Hsame.
  assert (Hnil : excludeTags ≠ [] ↔ excludeTags' ≠ []).
  { destruct excludeTags as [|e es], excludeTags' as [|e' es']; try done.
    - pose proof (proj2 (Hsame e') (list_elem_of_here _ _)) as H.
      by apply elem_of_nil in H.
    - pose proof (proj1 (Hsame e) (list_elem_of_here _ _)) as H.
      by apply elem_of_nil in H. }
  apply eq_true_iff_eq. rewrite !hasExcludeTags_true.
  split; intros (Hne & Hts & Hall); (split; [by apply Hnil|]); (split; [done|]);
    intros tag Htag; apply Hall; by apply Hsame.
Qed.

Lemma hasExcludeTags_same_pairs_witness :
  hasExcludeTags [ {| Key := "env"; Val := "prod" |}; {| Key := "team"; Val := "sec" |} ]
    [ {| ec2types.Key := "team"; ec2types.Value := "sec" |} ]
  = hasExcludeTags [ {| Key := "team"; Val := "sec" |}; {| Key := "env"; Val := "prod" |};
                     {| Key := "team"; Val := "sec" |} ]
      [ {| ec2types.Key := "team"; ec2types.Value := "sec" |} ].
Proof.
  apply hasExcludeTags_same_pairs. intros tag.
  rewrite !elem_of_cons, !elem_of_nil. tauto.
Defined.

(** X5: exclusion tags that ask for two different values of one key exclude
    no instance at all. *)
Theorem hasExcludeTags_conflicting (excludeTags : list Tag)
    (instanceTags : list ec2types.Tag) (k v1 v2 : string) :
  {| Key := k; Val := v1 |} ∈ excludeTags →
  {| Key := k; Val := v2 |} ∈ excludeTags →
  v1 ≠ v2 →
  hasExcludeTags excludeTags instanceTags = false.
Proof.
  intros H1 H2 Hne. apply not_true_is_false. rewrite hasExcludeTags_true.
  intros (_ & _ & Hall).
  pose proof (Hall _ H1) as E1. pose proof (Hall _ H2) as E2. simpl in *.
  congruence.
Qed.

Lemma hasExcludeTags_conflicting_witness :
  hasExcludeTags [ {| Key := "env"; Val := "prod" |}; {| Key := "env"; Val := "dev" |} ]
    [ {| ec2types.Key := "env"; ec2types.Value := "prod" |} ] = false.
Proof.
  apply (hasExcludeTags_conflicting _ _ "env" "prod" "dev").
  - apply list_elem_of_here.
  - apply list_elem_of_further, list_elem_of_here.
  - discriminate.
Defined.

(** X6: exclusion is anti-monotone in the exclusion tags: an instance
    excluded by a list of exclusion tags is excluded by every non-empty
    part of it. *)
Theorem hasExcludeTags_fewer_tags (excludeTags excludeTags' : list Tag)
    (instanceTags : list ec2types.Tag) :
  excludeTags' ≠ [] →
  (∀ tag, tag ∈ excludeTags' → tag ∈ excludeTags) →
  hasExcludeTags excludeTags instanceTags = true →
  hasExcludeTags excludeTags' instanceTags = true.
Proof.
  intros Hne Hsub. rewrite !hasExcludeTags_true.
  intros (_ & Hts & Hall). split; [done|]. split; [done|].
  intros tag Htag. by apply Hall, Hsub.
Qed.

Lemma hasExcludeTags_fewer_tags_witness :
  hasExcludeTags [ {| Key := "env"; Val := "prod" |} ]
    [ {| ec2types.Key := "env"; ec2types.Value := "prod" |};
      {| ec2types.Key := "team"; ec2types.Value := "sec" |} ] = true.
Proof.
  apply (hasExcludeTags_fewer_tags
           [ {| Key := "env"; Val := "prod" |}; {| Key := "team"; Val := "sec" |} ]).
  - discriminate.
  - intros tag ->%list_elem_of_singleton. apply list_elem_of_here.
  - by vm_compute.
Defined.

(** X7: when the keys of the instance's tags are pairwise distinct, the
    order of the instance's tags is of no matter for exclusion. *)
Theorem hasExcludeTags_tag_order (excludeTags : list Tag)
    (instanceTags instanceTags' : list ec2types.Tag) :
  NoDup (ec2types.Key <$> instanceTags) →
  instanceTags ≡ₚ instanceTags' →
  hasExcludeTags excludeTags instanceTags = hasExcludeTags excludeTags instanceTags'.
Proof.
  intros Hnd Hperm.
  assert (Hnd' : NoDup (ec2types.Key <$> instanceTags')) by by rewrite <- Hperm.
  assert (Hnil : instanceTags ≠ [] ↔ instanceTags' ≠ []).
  { split; intros H ->.
    - by apply Permutation_nil_r in Hperm.
    - by apply Permutation_nil_l in Hperm. }
  apply eq_true_iff_eq. rewrite !hasExcludeTags_true.
  split; intros (Hne & Hts & Hall); (split; [done|]); (split; [by apply Hnil|]);
    intros tag Htag; specialize (Hall tag Htag).
  - apply lastValue_NoDup; [done|]. rewrite <- Hperm. by apply lastValue_NoDup in Hall.
  - apply lastValue_NoDup; [done|]. rewrite Hperm. by apply lastValue_NoDup in Hall.
Qed.

Lemma hasExcludeTags_tag_order_witness :
  hasExcludeTags [ {| Key := "env"; Val := "prod" |} ]
    [ {| ec2types.Key := "env"; ec2types.Value := "prod" |};
      {| ec2types.Key := "team"; ec2types.Value := "sec" |} ]
  = hasExcludeTags [ {| Key := "env"; Val := "prod" |} ]
      [ {| ec2types.Key := "team"; ec2types.Value := "sec" |};
        {| ec2types.Key := "env"; ec2types.Value := "prod" |} ].
Proof.
  apply hasExcludeTags_tag_order.
  - simpl. apply NoDup_cons. split.
    + intros H%list_elem_of_singleton. discriminate H.
    + apply NoDup_singleton.
  - apply Permutation_swap.
Defined.

(** ** Instances of a page *)

(** X8: the instances [getInstancesFromDescribeInstancesOutput] returns all
    carry the region asked for and no availability zone; their ids are ids
    of the output, in the output's order; and without exclusion tags they
    are the ids of all instances of the output. *)
Theorem getInstancesFromDescribeInstancesOutput_spec
    (result : ec2.DescribeInstancesOutput) (excludeTags : list Tag)
    (regionID : string) :
  let instances := getInstancesFromDescribeInstancesOutput result excludeTags regionID in
  Forall (λ i, inst_region i = regionID ∧ inst_availabilityZone i = "") instances
  ∧ inst_id <$> instances `sublist_of` pageIds [result]
  ∧ inst_id <$> getInstancesFromDescribeInstancesOutput result [] regionID
    = pageIds [result].
Proof.
  cbv zeta. rewrite !getInstancesFromDescribeInstancesOutput_survivors.
  split; [|split].
  - unfold survivors. apply Forall_forall. intros i Hi.
    apply list_elem_of_bind in Hi as (r & Hi & _).
    apply list_elem_of_fmap in Hi as (x & -> & _). done.
  - pose proof (survivors_ids excludeTags regionID [result]) as H.
    simpl in H. by rewrite app_nil_r in H.
  - unfold pageIds, survivors. rewrite bind_cons. change ([] ≫= _) with (@nil string).
    rewrite app_nil_r.
    induction (ec2.Reservations result) as [|r rs IH]; [done|].
    rewrite !bind_cons, fmap_app, IH. f_equal.
    rewrite <- list_fmap_compose. clear IH.
    induction (ec2types.Instances r) as [|x xs IHx]; [done|].
    rewrite filter_cons_True by done. rewrite !fmap_cons. by rewrite IHx.
Qed.

(** ** More on [GetInstances] *)

(** X9: if a call made by [GetInstances] fails, on the first page or on a
    later one, then [GetInstances] returns no instance, not even those of
    the pages it had already read, and the error that wraps the failure; the
    failed call is its last call, and the store is as before. *)
Theorem GetInstances_fails {S : Type} (maxResults : Z) (c : Client S)
    (fuel : nat) (filters : slice) (excludeTags : list Tag) (regionID : string)
    (w : World S) (evs : list Event) (ev : Event) (err : string) :
  let e := GetInstances maxResults fuel c filters excludeTags regionID w in
  calls (world_of e) = calls w ++ evs →
  ev ∈ evs →
  failedQuery ev = Some err →
  e = Done ([], Some (Errorf "failed to describe instances" err)) (world_of e)
  ∧ (∃ pre, evs = pre ++ [ev] ∧ noFailure pre)
  ∧ heap (world_of e) = heap w.
Proof.
  intros e Hcalls Hin Hev.
  destruct (GetInstances_calls maxResults c fuel filters excludeTags regionID w)
    as (evs' & Hcalls' & Hheap & _ & _ & Hend).
  fold e in Hcalls', Hheap, Hend. rewrite Hcalls in Hcalls'.
  apply app_inv_head in Hcalls'. subst evs'.
  destruct e as [[r [err'|]] w'|w'|w']; simpl in *.
  - destruct (failsWith_last _ _ _ _ _ Hend Hin Hev) as [[= -> ->] Hlast]. done.
  - destruct (noFailure_elem _ _ _ Hend Hin Hev).
  - done.
  - destruct (noFailure_elem _ _ _ Hend Hin Hev).
Qed.

Lemma GetInstances_fails_witness :
  let e := GetInstances 50 1 sim.client nil_slice [] "us-east-1"
             (sim.world sim.secondPageFails) in
  e = Done ([], Some "failed to describe instances: RequestLimitExceeded") (world_of e)
  ∧ length (calls (world_of e)) = 2.
Proof.
  intros e. split; [|reflexivity].
  refine (proj1 (GetInstances_fails 50 sim.client 1 nil_slice [] "us-east-1"
                   (sim.world sim.secondPageFails) (calls (world_of e))
                   (EvDescribeInstances nil_slice
                       {| ec2.Filters := []; ec2.MaxResults := Some 50%Z;
                          ec2.NextToken := Some "t1" |}
                       "us-east-1" (Err "RequestLimitExceeded"))
                   "RequestLimitExceeded" _ _ _)).
  - reflexivity.
  - vm_compute. apply list_elem_of_further, list_elem_of_here.
  - reflexivity.
Defined.

(** X10: against a service that answers every request with a continuation
    token, [GetInstances] does not return: whatever bound is put on the
    number of further pages, the loop is still running when the bound is
    reached, having made one call per page. *)
Theorem GetInstances_endless {S : Type} (maxResults : Z) (c : Client S)
    (fuel : nat) (filters : slice) (excludeTags : list Tag) (regionID : string)
    (w : World S) :
  (∀ input region s, ∃ out s',
      ec2.DescribeInstances (ec2Client c) input region s = (Ok out, s')
      ∧ is_Some (ec2.NextToken_ out)) →
  ∃ w', GetInstances maxResults fuel c filters excludeTags regionID w = OutOfFuel w'
        ∧ length (calls w') = length (calls w) + Datatypes.S fuel.
Proof.
  intros Hmore.
  assert (Hloop : ∀ fuel out ret (w : World S),
             is_Some (ec2.NextToken_ out) →
             ∃ w', GetInstances_pages maxResults fuel c filters excludeTags regionID
                     out ret w = OutOfFuel w'
                   ∧ length (calls w') = length (calls w) + fuel).
  { clear fuel w. induction fuel as [|fuel IH]; intros out ret w [token Htoken]; simpl;
      rewrite Htoken.
    - exists w. split; [done|lia].
    - unfold bind, callDescribeInstances.
      match goal with
      | |- context [ec2.DescribeInstances _ ?i ?r ?s] =>
          destruct (Hmore i r s) as (out1 & s1 & -> & Hnext)
      end.
      match goal with
      | |- context [GetInstances_pages _ _ _ _ _ _ ?o ?r ?w1] =>
          destruct (IH o r w1 Hnext) as (w' & -> & Hlen)
      end.
      exists w'. split; [done|]. rewrite Hlen. simpl. rewrite length_app. simpl. lia. }
  unfold GetInstances, bind, callDescribeInstances.
  match goal with
  | |- context [ec2.DescribeInstances _ ?i ?r ?s] =>
      destruct (Hmore i r s) as (out1 & s1 & -> & Hnext)
  end.
  match goal with
  | |- context [GetInstances_pages _ _ _ _ _ _ ?o ?r ?w1] =>
      destruct (Hloop fuel o r w1 Hnext) as (w' & -> & Hlen)
  end.
  exists w'. split; [done|]. rewrite Hlen. simpl. rewrite length_app. simpl. lia.
Qed.

Lemma GetInstances_endless_witness :
  ∃ w', GetInstances 50 3 endless.client nil_slice [] "us-east-1" endless.world
        = OutOfFuel w'
        ∧ length (calls w') = length (calls endless.world) + 4.
Proof.
  apply (GetInstances_endless 50 endless.client 3 nil_slice [] "us-east-1" endless.world).
  intros input region s. eexists _, _. split; [reflexivity|]. by eexists.
Defined.

(** ** What [Discover] returns *)

Lemma Answered_app_inv {S} (c : Client S) maxResults fuel excludeTags qs1 :
  ∀ qs2 s insts s',
    Answered c maxResults fuel excludeTags (qs1 ++ qs2) s insts s' →
    ∃ insts1 s1 insts2,
      Answered c maxResults fuel excludeTags qs1 s insts1 s1
      ∧ Answered c maxResults fuel excludeTags qs2 s1 insts2 s'
      ∧ insts = insts1 ++ insts2.
Proof.
  induction qs1 as [|q qs1 IH]; intros qs2 s insts s' H; simpl in H.
  - exists [], s, insts. split; [constructor|done].
  - inversion H as [|regionID fs ? ? pages s1 rest ? Hpages Hlen Hrest]; subst.
    destruct (IH _ _ _ _ Hrest) as (i1 & s2 & i2 & H1 & H2 & ->).
    eexists _, s2, i2. split; [by econstructor|]. split; [done|].
    by rewrite app_assoc.
Qed.

Section Answers.
Context {S : Type} (growcap : growth) (maxResults : Z) (c : Client S).
Context (fuel : nat) (filters : slice) (excludeTags : list Tag).
Context (base : list ec2types.Filter).

Lemma GetInstances_run fs regionID (w : World S) pages s' :
  Paging c maxResults (elems (heap w) fs) regionID None (service w) pages s' →
  length pages ≤ Datatypes.S fuel →
  GetInstances maxResults fuel c fs excludeTags regionID w
  = Done (pages ≫= survivors excludeTags regionID, None)
      {| heap := heap w;
         calls := calls w ++ pageCalls maxResults fs (elems (heap w) fs)
                               regionID None pages;
         service := s' |}.
Proof.
  intros Hpages Hlen. unfold GetInstances, bind, callDescribeInstances.
  inversion Hpages as [? ? out1 ? Hcall Hlast | ? ? out1 next s1 outs ? Hcall Hnext Hrest];
    subst; rewrite Hcall; rewrite getInstancesFromDescribeInstancesOutput_survivors.
  - destruct fuel; simpl; rewrite Hlast; unfold mreturn; by rewrite app_nil_r.
  - erewrite GetInstances_pages_run;
      [| exact Hnext | exact Hrest | simpl in Hlen; lia ].
    simpl. rewrite Hnext. by rewrite <- !app_assoc.
Qed.

Lemma Discover_vpcs_answers regionName vpcs :
  ∀ ret (w : World S) insts s',
    valid (heap w) filters → elems (heap w) filters = base →
    Answered c maxResults fuel excludeTags
      ((λ vpc, (regionName, base ++ createVPCFilters vpc)) <$> vpcs)
      (service w) insts s' →
    ∃ w', Discover_vpcs growcap maxResults fuel c filters excludeTags
            regionName vpcs ret w = Done (ret ++ insts, None) w'
          ∧ service w' = s'
          ∧ valid (heap w') filters ∧ elems (heap w') filters = base.
Proof.
  induction vpcs as [|vpc vpcs IH]; intros ret w insts s' Hv He Hans.
  - revert He. inversion Hans; subst. intros He. exists w. by rewrite app_nil_r.
  - rewrite Discover_vpcs_cons. cbv zeta.
    rewrite fmap_cons in Hans.
    revert He.
    inversion Hans as [|? ? ? ? pages s1 rest ? Hpages Hlen Hrest]; subst.
    intros He.
    pose proof (append_elems zeroFilter growcap (heap w) filters
                  (createVPCFilters vpc) Hv) as Hq.
    rewrite He in Hq. rewrite <- Hq in Hpages.
    erewrite GetInstances_run; [| exact Hpages | exact Hlen ].
    simpl. rewrite app_assoc. apply IH; simpl; [| |done].
    + by apply append_valid_other.
    + rewrite <- He. by apply append_elems_self.
Qed.

Lemma Discover_regions_answers regions :
  ∀ ret (w : World S) insts s',
    valid (heap w) filters → elems (heap w) filters = base →
    Answered c maxResults fuel excludeTags (queriesOf base regions)
      (service w) insts s' →
    ∃ w', Discover_regions growcap maxResults fuel c filters excludeTags
            regions ret w = Done (ret ++ insts, None) w'
          ∧ service w' = s'.
Proof.
  induction regions as [|region regions IH]; intros ret w insts s' Hv He Hans.
  - revert He. inversion Hans; subst. intros He. exists w. by rewrite app_nil_r.
  - rewrite Discover_regions_cons.
    change (queriesOf base (region :: regions))
      with ((if length (vpcs region) =? 0 then [(name region, base)]
             else (λ vpc, (name region, base ++ createVPCFilters vpc)) <$> vpcs region)
            ++ queriesOf base regions) in Hans.
    apply Answered_app_inv in Hans as (i1 & s1 & i2 & H1 & H2 & ->).
    destruct (length (vpcs region) =? 0).
    + revert He.
      inversion H1 as [|? ? ? ? pages s2 rest ? Hpages Hlen Hrest]; subst.
      inversion Hrest; subst. intros He. rewrite <- He in Hpages.
      erewrite GetInstances_run; [| exact Hpages | exact Hlen ].
      simpl. rewrite app_nil_r, app_assoc. by apply IH.
    + destruct (Discover_vpcs_answers _ _ ret w i1 s1 Hv He H1)
        as (w1 & -> & Hs1 & Hv1 & He1).
      simpl. rewrite app_assoc. apply IH; [done|done|by rewrite Hs1].
Qed.

End Answers.

(** X11: when the regions are resolved and the service answers every query
    of the discovery (one per region without VPCs, one per VPC otherwise, in
    that order), [Discover] returns without error the surviving instances
    of all pages of all queries, in the order of the queries and pages. *)
Theorem Discover_returns_all {S ScanScopeType : Type}
    (growcap : growth) (maxResults : Z)
    (AsAwsScanScope : ScanScopeType → Result models.AwsScanScope)
    (c : Client S) (fuel : nat) (scanScope : ScanScopeType)
    (awsScanScope : models.AwsScanScope) (regions : list Region) (w w0 : World S)
    (insts : list InstanceImpl) (s' : S) :
  (∀ oldCap newLen, newLen ≤ growcap oldCap newLen) →
  AsAwsScanScope scanScope = Ok awsScanScope →
  let scope := convertScope awsScanScope in
  getRegionsToScan c scope w = Done (regions, None) w0 →
  regions ≠ [] →
  Answered c maxResults fuel (ExcludeTags scope)
    (queriesOf (baseFilters scope) regions) (service w0) insts s' →
  ∃ w', Discover growcap maxResults AsAwsScanScope fuel c scanScope w
        = Done (insts, None) w'
        ∧ service w' = s'.
Proof.
  intros Hgrow Has scope Hresolved Hregions Hans.
  rewrite Discover_unfold, Has. cbv zeta. fold scope. rewrite Hresolved.
  destruct regions as [|region regions]; [done|].
  change (length (region :: regions) =? 0) with false. cbv iota.
  unfold bind.
  destruct (Discover_filters_run growcap scope w0) as (filters & h & Heq & Hbase).
  destruct (Hbase Hgrow) as [Hv He]. rewrite Heq.
  apply (Discover_regions_answers growcap maxResults c fuel filters
           (ExcludeTags scope) (baseFilters scope) (region :: regions) []
           {| heap := h; calls := calls w0; service := service w0 |} insts s' Hv He Hans).
Qed.

Lemma Discover_returns_all_witness :
  ∃ w', Discover growcap_double 50 sim.asAwsScanScope 2 sim.client sim.twoRegions
          (sim.world sim.threePages)
        = Done ((λ i, {| inst_id := i; inst_region := "us-east-1";
                         inst_availabilityZone := "" |})
                  <$> ["i-1"; "i-2"; "i-3"; "i-4"], None) w'
        ∧ service w' = sim.quiet.
Proof.
  apply (Discover_returns_all growcap_double 50 sim.asAwsScanScope sim.client 2
           sim.twoRegions sim.twoRegions (Regions (convertScope sim.twoRegions))
           (sim.world sim.threePages) (sim.world sim.threePages)).
  - apply growcap_double_enough.
  - reflexivity.
  - reflexivity.
  - vm_compute. discriminate.
  - change (Answered sim.client 50 2 []
              [ ("us-east-1", createInstanceStateFilters false);
                ("eu-west-1", createInstanceStateFilters false) ]
              sim.threePages
              (([ sim.page ["i-1"; "i-2"] (Some "t1");
                  sim.page ["i-3"] (Some "t2");
                  sim.page ["i-4"] None ] ≫= survivors [] "us-east-1")
               ++ ([ {| ec2.Reservations := []; ec2.NextToken_ := None |} ]
                     ≫= survivors [] "eu-west-1") ++ [])
              sim.quiet).
    eapply Answered_cons with (s1 := sim.quiet).
    + eapply Paging_more; [reflexivity | reflexivity |].
      eapply Paging_more; [reflexivity | reflexivity |].
      eapply Paging_last; reflexivity.
    + simpl. lia.
    + eapply Answered_cons with (s1 := sim.quiet).
      * eapply Paging_last; reflexivity.
      * simpl. lia.
      * constructor.
Defined.

(** ** [Discover] before the first query *)

(** X12: when the scope resolves to no region at all, be it an explicit
    empty list or a service that lists none, [Discover] returns the error
    "no regions to scan"; it builds no filter and asks for no instance. *)
Theorem Discover_without_regions {S ScanScopeType : Type}
    (growcap : growth) (maxResults : Z)
    (AsAwsScanScope : ScanScopeType → Result models.AwsScanScope)
    (c : Client S) (fuel : nat) (scanScope : ScanScopeType)
    (awsScanScope : models.AwsScanScope) (w w0 : World S) :
  AsAwsScanScope scanScope = Ok awsScanScope →
  getRegionsToScan c (convertScope awsScanScope) w = Done ([], None) w0 →
  Discover growcap maxResults AsAwsScanScope fuel c scanScope w
  = Done ([], Some "no regions to scan") w0.
Proof.
  intros Has Hresolved. rewrite Discover_unfold, Has. cbv zeta.
  by rewrite Hresolved.
Qed.

Lemma Discover_without_regions_witness :
  Discover growcap_double 50 sim.asAwsScanScope 0 sim.client
    (sim.awsScope [] [] []) (sim.world sim.threePages)
  = Done ([], Some "no regions to scan") (sim.world sim.threePages).
Proof.
  apply (Discover_without_regions growcap_double 50 sim.asAwsScanScope sim.client 0
           (sim.awsScope [] [] []) (sim.awsScope [] [] [])); reflexivity.
Defined.

(** X13: when all regions are asked for and the service fails to list them,
    [Discover] returns the failure, wrapped twice, after that one call; no
    instance is asked for. *)
Theorem Discover_listing_fails {S ScanScopeType : Type}
    (growcap : growth) (maxResults : Z)
    (AsAwsScanScope : ScanScopeType → Result models.AwsScanScope)
    (c : Client S) (fuel : nat) (scanScope : ScanScopeType)
    (awsScanScope : models.AwsScanScope) (w : World S) (err : string) (s1 : S) :
  AsAwsScanScope scanScope = Ok awsScanScope →
  models.AllRegions awsScanScope = Some true →
  ec2.DescribeRegions (ec2Client c) {| ec2.AllRegions := None |} (service w)
  = (Err err, s1) →
  Discover growcap maxResults AsAwsScanScope fuel c scanScope w
  = Done ([], Some (Errorf "failed to get regions to scan"
                      (Errorf "failed to describe regions" err)))
      {| heap := heap w;
         calls := calls w ++ [EvDescribeRegions {| ec2.AllRegions := None |} (Err err)];
         service := s1 |}.
Proof.
  intros Has Hall Hfail. rewrite Discover_unfold, Has. cbv zeta.
  unfold getRegionsToScan, convertScope. simpl. rewrite Hall.
  rewrite ListAllRegions_run. cbv zeta. by rewrite Hfail.
Qed.

Lemma Discover_listing_fails_witness :
  Discover growcap_double 50 sim.asAwsScanScope 0 down.client down.allRegions down.world
  = Done ([], Some "failed to get regions to scan: failed to describe regions: ServiceUnavailable")
      {| heap := [];
         calls := [EvDescribeRegions {| ec2.AllRegions := None |} (Err "ServiceUnavailable")];
         service := tt |}.
Proof.
  apply (Discover_listing_fails growcap_double 50 sim.asAwsScanScope down.client 0
           down.allRegions down.allRegions down.world "ServiceUnavailable" tt);
    reflexivity.
Defined.

(** ** Where and how [Discover] asks *)

Lemma Served_calls qs evs :
  Served qs evs → Forall (λ ev, ∃ q, q ∈ qs ∧ callOf q ev) evs.
Proof.
  induction 1 as [|q qs evs rest _ Hall _ IH]; [constructor|].
  apply Forall_app. split.
  - eapply Forall_impl; [exact Hall|]. intros ev Hev. exists q. split; [left|done].
  - eapply Forall_impl; [exact IH|]. intros ev (q' & Hin & Hev).
    exists q'. split; [by right|done].
Qed.

Lemma queriesOf_elem base regions (q : Query) :
  q ∈ queriesOf base regions →
  ∃ region, region ∈ regions ∧ q.1 = name region ∧ base `prefix_of` q.2.
Proof.
  unfold queriesOf. intros (region & Hq & Hregion)%list_elem_of_bind.
  exists region. split; [done|].
  destruct (length (vpcs region) =? 0).
  - apply list_elem_of_singleton in Hq as ->. simpl. done.
  - apply list_elem_of_fmap in Hq as (vpc & -> & _). simpl.
    split; [done|]. by apply prefix_app_r.
Qed.

(** X14: once the regions are resolved, every call [Discover] goes on to
    make is an instance query, in one of the resolved regions, whose filters
    begin with the base filters: all the tag-inclusion filters and the
    instance-state filter. *)
Theorem Discover_asks_in_scope {S ScanScopeType : Type}
    (growcap : growth) (maxResults : Z)
    (AsAwsScanScope : ScanScopeType → Result models.AwsScanScope)
    (c : Client S) (fuel : nat) (scanScope : ScanScopeType)
    (awsScanScope : models.AwsScanScope) (regions : list Region) (w w0 : World S) :
  (∀ oldCap newLen, newLen ≤ growcap oldCap newLen) →
  AsAwsScanScope scanScope = Ok awsScanScope →
  let scope := convertScope awsScanScope in
  getRegionsToScan c scope w = Done (regions, None) w0 →
  let e := Discover growcap maxResults AsAwsScanScope fuel c scanScope w in
  ∃ evs,
    calls (world_of e) = calls w0 ++ evs
    ∧ Forall (λ ev, ∃ filters input regionID out region,
                ev = EvDescribeInstances filters input regionID out
                ∧ region ∈ regions
                ∧ regionID = name region
                ∧ baseFilters scope `prefix_of` ec2.Filters input) evs.
Proof.
  intros Hgrow Has scope Hresolved e. subst e.
  rewrite Discover_unfold, Has. cbv zeta. fold scope. rewrite Hresolved.
  destruct regions as [|region regions].
  { exists []. rewrite app_nil_r. split; [done|constructor]. }
  change (length (region :: regions) =? 0) with false. cbv iota.
  unfold bind.
  destruct (Discover_filters_run growcap scope w0) as (filters & h & Heq & Hbase).
  destruct (Hbase Hgrow) as [Hv He]. rewrite Heq.
  destruct (Discover_regions_Keeps growcap maxResults c fuel filters
              (ExcludeTags scope) (baseFilters scope) (region :: regions) []
              {| heap := h; calls := calls w0; service := service w0 |} Hv He)
    as (evs & Hcalls & _ & _ & (asked & Hpre & Hserved) & _).
  exists evs. split; [done|].
  eapply Forall_impl; [exact (Served_calls _ _ Hserved)|].
  intros ev (q & Hq & Hev). destruct Hpre as [rest Hrest].
  assert (Hq' : q ∈ queriesOf (baseFilters scope) (region :: regions)).
  { rewrite Hrest. apply elem_of_app. by left. }
  apply queriesOf_elem in Hq' as (r & Hr & Hname & Hprefix).
  destruct ev as [fs input regionID out| |]; try done.
  destruct Hev as [-> Hfs]. exists fs, input, (q.1), out, r.
  by rewrite Hfs.
Qed.

Lemma Discover_asks_in_scope_witness :
  let scope := convertScope sim.twoVpcs in
  let e := Discover growcap_double 50 sim.asAwsScanScope 0 sim.client sim.twoVpcs
             (sim.world sim.quiet) in
  ∃ evs,
    calls (world_of e) = calls (sim.world sim.quiet) ++ evs
    ∧ Forall (λ ev, ∃ filters input regionID out region,
                ev = EvDescribeInstances filters input regionID out
                ∧ region ∈ Regions scope
                ∧ regionID = name region
                ∧ baseFilters scope `prefix_of` ec2.Filters input) evs.
Proof.
  apply (Discover_asks_in_scope growcap_double 50 sim.asAwsScanScope sim.client 0
           sim.twoVpcs sim.twoVpcs (Regions (convertScope sim.twoVpcs))
           (sim.world sim.quiet) (sim.world sim.quiet)).
  - apply growcap_double_enough.
  - reflexivity.
  - reflexivity.
Defined.

(** ** More on provisioning *)

(** X15: what [RunScanningJob] returns.  When the bootstrap payload cannot
    be generated: that error, wrapped, and nothing is sent.  When the launch
    fails: that error, wrapped.  When the launch succeeds and the first
    launched instance has an id, a placement and an availability zone: a
    handle with that id and zone and the region that was asked for.  When
    the service reports success without any instance, or with a first
    instance that lacks its id, its placement or its availability zone, the
    index or the dereference panics. *)
Theorem RunScanningJob_result {S : Type}
    (GenerateCloudInit : cloudinit.Data → Result string)
    (base64_EncodeToString : string → string)
    (c : Client S) (region id : string) (config : ScanningJobConfig) (w : World S) :
  let e := RunScanningJob GenerateCloudInit base64_EncodeToString c region id config w in
  match GenerateCloudInit
          {| cloudinit.ScannerCLIConfig := ScannerCLIConfig config;
             cloudinit.ScannerImage := ScannerImage config;
             cloudinit.ServerAddress := VMClarityAddress config;
             cloudinit.ScanResultID := ScanResultID config |} with
  | Err err => e = Done (None, Some (Errorf "failed to generate cloud-init" err)) w
  | Ok _ =>
      ∃ input out,
        calls (world_of e) = calls w ++ [EvRunInstances input region out]
        ∧ heap (world_of e) = heap w
        ∧ match out with
          | Err err =>
              e = Done (None, Some (Errorf "failed to run instances" err)) (world_of e)
          | Ok out =>
              match ec2.Instances out with
              | [] => e = Panic (world_of e)
              | instance :: _ =>
                  match ec2types.LaunchedInstanceId instance,
                        ec2types.Placement_ instance ≫= ec2types.AvailabilityZone with
                  | Some instanceId, Some availabilityZone =>
                      e = Done (Some {| inst_id := instanceId;
                                        inst_region := region;
                                        inst_availabilityZone := availabilityZone |},
                                None) (world_of e)
                  | _, _ => e = Panic (world_of e)
                  end
              end
          end
  end.
Proof.
  intros e. subst e. rewrite RunScanningJob_run.
  destruct (GenerateCloudInit _) as [userData|err]; [|done].
  cbv zeta.
  destruct (ec2.RunInstances _ _ _ _) as [[out|err] s1]; simpl.
  - eexists _, (Ok out). unfold launchedHandle.
    destruct (ec2.Instances out) as [|instance rest]; simpl; [done|].
    destruct (ec2types.LaunchedInstanceId instance) as [instanceId|]; simpl; [|done].
    destruct (ec2types.Placement_ instance) as [placement|]; simpl; [|done].
    by destruct (ec2types.AvailabilityZone placement).
  - by eexists _, (Err err).
Qed.

(** X16: every launch request of [RunScanningJob] asks for exactly one
    instance of the configured image, with the encoded bootstrap payload
    generated from the job configuration, and with one network interface,
    in the scanner's subnet and security group, without a public address,
    deleted when the instance terminates. *)
Theorem RunScanningJob_request {S : Type}
    (GenerateCloudInit : cloudinit.Data → Result string)
    (base64_EncodeToString : string → string)
    (c : Client S) (region id : string) (config : ScanningJobConfig) (w : World S) :
  let e := RunScanningJob GenerateCloudInit base64_EncodeToString c region id config w in
  match GenerateCloudInit
          {| cloudinit.ScannerCLIConfig := ScannerCLIConfig config;
             cloudinit.ScannerImage := ScannerImage config;
             cloudinit.ServerAddress := VMClarityAddress config;
             cloudinit.ScanResultID := ScanResultID config |} with
  | Err _ => calls (world_of e) = calls w
  | Ok userData =>
      ∃ input out,
        calls (world_of e) = calls w ++ [EvRunInstances input region out]
        ∧ ec2.MinCount input = Some 1%Z
        ∧ ec2.MaxCount input = Some 1%Z
        ∧ ec2.ImageId input = Some (AmiID (awsConfig c))
        ∧ ec2.InstanceType input = ec2types.InstanceTypeT2Large
        ∧ ec2.UserData input = Some (base64_EncodeToString userData)
        ∧ ec2.NetworkInterfaces input
          = [ {| ec2types.AssociatePublicIpAddress := Some false;
                 ec2types.DeleteOnTermination := Some true;
                 ec2types.DeviceIndex := Some 0%Z;
                 ec2types.Groups := [SecurityGroupID (awsConfig c)];
                 ec2types.SubnetId := Some (SubnetID (awsConfig c)) |} ]
  end.
Proof.
  intros e. subst e. rewrite RunScanningJob_run.
  destruct (GenerateCloudInit _) as [userData|err]; [|done].
  cbv zeta.
  destruct (ec2.RunInstances _ _ _ _) as [[out|err] s1]; simpl.
  - eexists _, _. split; [by destruct (launchedHandle region out)|done].
  - by eexists _, _.
Qed.

(** X17: the tags of a scanner instance tell the targets apart: scanners
    for different target ids get different instance tags. *)
Theorem createInstanceTags_distinct (id1 id2 : string) :
  id1 ≠ id2 → createInstanceTags id1 ≠ createInstanceTags id2.
Proof.
  unfold createInstanceTags. simpl. intros Hne H. apply Hne. by injection H.
Qed.

Lemma createInstanceTags_distinct_witness :
  createInstanceTags "i-1" ≠ createInstanceTags "i-2".
Proof.
  apply (createInstanceTags_distinct "i-1" "i-2"). discriminate.
Defined.

(** ** The REST handlers *)

Section Handlers.
Context {DB E Payload Estimations GetParams GetOneParams PatchParams PutParams : Type}.

Local Abbreviation Server :=
  (@rest.ServerImpl DB E Payload Estimations GetParams GetOneParams PatchParams PutParams).
Local Abbreviation Ctx := (@rest.Context Payload).

(** X18: [PATCH] and [PUT] with a body whose id is not the id of the URL
    are answered with status 400, and the table is not called: the server
    is as before. *)
Theorem update_with_other_id_rejected (s : Server) (ctx : Ctx)
    (scanEstimation : database.ScanEstimation Payload) (id scanEstimationID : string)
    (patchParams : PatchParams) (putParams : PutParams) :
  rest.Bind ctx = Ok scanEstimation →
  database.Id scanEstimation = Some id →
  id ≠ scanEstimationID →
  let message := "id in body " +:+ id +:+ " does not match object "
                 +:+ scanEstimationID +:+ " to be updated" in
  rest.PatchScanEstimationsScanEstimationID s ctx scanEstimationID patchParams
  = (rest.sendError 400 message, s)
  ∧ rest.PutScanEstimationsScanEstimationID s ctx scanEstimationID putParams
    = (rest.sendError 400 message, s).
Proof.
  intros Hbind Hid Hne message.
  unfold rest.PatchScanEstimationsScanEstimationID,
    rest.PutScanEstimationsScanEstimationID, rest.idMismatch.
  rewrite Hbind, Hid. apply String.eqb_neq in Hne. by rewrite Hne.
Qed.

(** X19: [PATCH] and [PUT] call the table at most once, and when they do,
    it is to update, respectively save, the estimation with the id of the
    URL and the content of the body, whether or not the body had an id. *)
Theorem update_uses_url_id (s : Server) (ctx : Ctx) (scanEstimationID : string)
    (patchParams : PatchParams) (putParams : PutParams) :
  let patched :=
    rest.PatchScanEstimationsScanEstimationID s ctx scanEstimationID patchParams in
  let put :=
    rest.PutScanEstimationsScanEstimationID s ctx scanEstimationID putParams in
  (rest.dbCalls patched.2 = rest.dbCalls s
   ∨ ∃ scanEstimation,
       rest.Bind ctx = Ok scanEstimation
       ∧ rest.dbCalls patched.2
         = rest.dbCalls s
           ++ [ rest.CallUpdateScanEstimation
                  {| database.Id := Some scanEstimationID;
                     database.content := database.content scanEstimation |}
                  patchParams ])
  ∧ (rest.dbCalls put.2 = rest.dbCalls s
     ∨ ∃ scanEstimation,
         rest.Bind ctx = Ok scanEstimation
         ∧ rest.dbCalls put.2
           = rest.dbCalls s
             ++ [ rest.CallSaveScanEstimation
                    {| database.Id := Some scanEstimationID;
                       database.content := database.content scanEstimation |}
                    putParams ]).
Proof.
  cbv zeta.
  unfold rest.PatchScanEstimationsScanEstimationID,
    rest.PutScanEstimationsScanEstimationID.
  destruct (rest.Bind ctx) as [scanEstimation|err]; [|by split; left].
  destruct (rest.idMismatch scanEstimation scanEstimationID); [by split; left|].
  split; right; exists scanEstimation; (split; [done|]).
  - destruct (database.UpdateScanEstimation _ _ _ _) as [[updated|err] db'];
      simpl; [done|].
    by repeat match goal with |- context [if ?b then _ else _] => destruct b end.
  - destruct (database.SaveScanEstimation _ _ _ _) as [[updated|err] db'];
      simpl; [done|].
    by repeat match goal with |- context [if ?b then _ else _] => destruct b end.
Qed.

(** X20: [PATCH] and [PUT] answer a failure of the table in the same way:
    for the same error, whichever of the two tables operations reports it,
    both send the same status, which is 404 for a not-found error, else 400
    for a bad request, else 412 for a failed precondition, else 500. *)
Theorem update_errors_alike (s : Server) (ctx : Ctx)
    (scanEstimation : database.ScanEstimation Payload) (scanEstimationID : string)
    (patchParams : PatchParams) (putParams : PutParams) (err : E) (db1 db2 : DB) :
  rest.Bind ctx = Ok scanEstimation →
  rest.idMismatch scanEstimation scanEstimationID = None →
  let sent := {| database.Id := Some scanEstimationID;
                 database.content := database.content scanEstimation |} in
  database.UpdateScanEstimation (rest.dbHandler s) sent patchParams (rest.db s)
  = (inr err, db1) →
  database.SaveScanEstimation (rest.dbHandler s) sent putParams (rest.db s)
  = (inr err, db2) →
  let status :=
    if database.IsErrNotFound (rest.dbHandler s) err then 404%Z
    else if database.AsBadRequestError (rest.dbHandler s) err then 400%Z
    else if database.AsPreconditionFailedError (rest.dbHandler s) err then 412%Z
    else 500%Z in
  rest.code (rest.PatchScanEstimationsScanEstimationID s ctx scanEstimationID patchParams).1
  = status
  ∧ rest.code (rest.PutScanEstimationsScanEstimationID s ctx scanEstimationID putParams).1
    = status.
Proof.
  intros Hbind Hid sent Hupdate Hsave status. subst status.
  unfold rest.PatchScanEstimationsScanEstimationID,
    rest.PutScanEstimationsScanEstimationID.
  rewrite Hbind, Hid. fold sent. rewrite Hupdate, Hsave. simpl.
  destruct (database.IsErrNotFound _ err); [done|].
  destruct (database.AsBadRequestError _ err); [done|].
  by destruct (database.AsPreconditionFailedError _ err).
Qed.

End Handlers.

Lemma update_with_other_id_rejected_witness :
  let s := {| rest.dbHandler := database.emptyTable; rest.db := tt; rest.dbCalls := [] |} in
  let ctx := {| rest.Bind := Ok {| database.Id := Some "a"; database.content := "x" |} |} in
  rest.PatchScanEstimationsScanEstimationID s ctx "b" tt
  = (rest.sendError 400 "id in body a does not match object b to be updated", s)
  ∧ rest.PutScanEstimationsScanEstimationID s ctx "b" tt
    = (rest.sendError 400 "id in body a does not match object b to be updated", s).
Proof.
  intros s ctx.
  apply (update_with_other_id_rejected s ctx
           {| database.Id := Some "a"; database.content := "x" |} "a" "b" tt tt).
  - reflexivity.
  - reflexivity.
  - discriminate.
Defined.

Lemma update_errors_alike_witness :
  let s := {| rest.dbHandler := database.emptyTable; rest.db := tt; rest.dbCalls := [] |} in
  let ctx := {| rest.Bind := Ok {| database.Id := None; database.content := "x" |} |} in
  rest.code (rest.PatchScanEstimationsScanEstimationID s ctx "b" tt).1 = 404%Z
  ∧ rest.code (rest.PutScanEstimationsScanEstimationID s ctx "b" tt).1 = 404%Z.
Proof.
  intros s ctx.
  apply (update_errors_alike s ctx
           {| database.Id := None; database.content := "x" |} "b" tt tt
           database.ErrNotFound tt tt); reflexivity.
Defined.

(** ** Discovery in all regions *)

Lemma queriesOf_whole_regions base (regions : list ec2types.Region) :
  queriesOf base
    ((λ region, {| name := ec2types.RegionName region; vpcs := [] |}) <$> regions)
  = (λ region, (ec2types.RegionName region, base)) <$> regions.
Proof.
  unfold queriesOf. induction regions as [|r rs IH]; [done|].
  rewrite fmap_cons, bind_cons, IH. done.
Qed.

(** X21: when the scope asks for all regions, the regions and VPCs it names
    are of no matter: after listing the regions, [Discover] asks each listed
    region, in the order of the listing, with the base filters alone (all of
    them if it returns without error, the first ones otherwise). *)
Theorem Discover_all_regions {S ScanScopeType : Type}
    (growcap : growth) (maxResults : Z)
    (AsAwsScanScope : ScanScopeType → Result models.AwsScanScope)
    (c : Client S) (fuel : nat) (scanScope : ScanScopeType)
    (awsScanScope : models.AwsScanScope) (w : World S)
    (out : ec2.DescribeRegionsOutput) (s1 : S) :
  (∀ oldCap newLen, newLen ≤ growcap oldCap newLen) →
  AsAwsScanScope scanScope = Ok awsScanScope →
  models.AllRegions awsScanScope = Some true →
  ec2.DescribeRegions (ec2Client c) {| ec2.AllRegions := None |} (service w)
  = (Ok out, s1) →
  let scope := convertScope awsScanScope in
  let e := Discover growcap maxResults AsAwsScanScope fuel c scanScope w in
  let queries :=
    (λ region, (ec2types.RegionName region, baseFilters scope)) <$> ec2.Regions out in
  ∃ evs,
    calls (world_of e)
    = calls w ++ EvDescribeRegions {| ec2.AllRegions := None |} (Ok out) :: evs
    ∧ (∃ asked, asked `prefix_of` queries ∧ Served asked evs)
    ∧ (∀ r w', e = Done (r, None) w' → Served queries evs).
Proof.
  intros Hgrow Has Hall Hlist scope e queries. subst e.
  rewrite Discover_unfold, Has. cbv zeta. fold scope.
  unfold getRegionsToScan. replace (AllRegions scope) with true
    by (unfold scope, convertScope; simpl; by rewrite Hall).
  rewrite ListAllRegions_run. cbv zeta. rewrite Hlist. simpl fst. simpl snd. cbv iota.
  subst queries. rewrite <- queriesOf_whole_regions.
  remember ((λ region, {| name := ec2types.RegionName region; vpcs := [] |})
              <$> ec2.Regions out) as resolved eqn:Hresolved.
  destruct resolved as [|region regions].
  { exists []. split; [done|]. split; [|done].
    exists []. split; [done|constructor]. }
  change (length (region :: regions) =? 0) with false. cbv iota.
  unfold bind.
  match goal with
  | |- context [Discover_filters growcap scope ?w0] =>
      destruct (Discover_filters_run growcap scope w0) as (filters & h & Heq & Hbase)
  end.
  destruct (Hbase Hgrow) as [Hv He]. rewrite Heq.
  match goal with
  | |- context [Discover_regions _ _ _ _ _ _ _ _ ?w1] =>
      destruct (Discover_regions_Keeps growcap maxResults c fuel filters
                  (ExcludeTags scope) (baseFilters scope) (region :: regions) []
                  w1 Hv He)
        as (evs & Hcalls & _ & _ & Hasked & Hfull)
  end.
  exists evs. split; [|done].
  rewrite Hcalls. simpl. by rewrite <- app_assoc.
Qed.

Lemma Discover_all_regions_witness :
  let scope := convertScope down.allRegions in
  let e := Discover growcap_double 50 sim.asAwsScanScope 0 sim.client down.allRegions
             (sim.world sim.account) in
  let out := {| ec2.Regions := [ {| ec2types.RegionName := "us-east-1" |} ] |} in
  let queries := [ ("us-east-1", baseFilters scope) ] in
  ∃ evs,
    calls (world_of e)
    = calls (sim.world sim.account)
      ++ EvDescribeRegions {| ec2.AllRegions := None |} (Ok out) :: evs
    ∧ (∃ asked, asked `prefix_of` queries ∧ Served asked evs)
    ∧ (∀ r w', e = Done (r, None) w' → Served queries evs).
Proof.
  apply (Discover_all_regions growcap_double 50 sim.asAwsScanScope sim.client 0
           down.allRegions down.allRegions (sim.world sim.account)
           {| ec2.Regions := [ {| ec2types.RegionName := "us-east-1" |} ] |}
           sim.account).
  - apply growcap_double_enough.
  - reflexivity.
  - reflexivity.
  - reflexivity.
Defined.

Example launch_gives_handle :
  ∃ w', RunScanningJob (λ _, Ok "payload") (λ s, s) sim.client "us-east-1" "i-1"
          jobConfig (sim.world sim.launched)
        = Done (Some {| inst_id := "i-scanner"; inst_region := "us-east-1";
                        inst_availabilityZone := "us-east-1a" |}, None) w'.
Proof. by eexists. Qed.

Example launch_without_instance_panics :
  ∃ w', RunScanningJob (λ _, Ok "payload") (λ s, s) sim.client "us-east-1" "i-1"
          jobConfig (sim.world sim.launchedNone)
        = Panic w'.
Proof. by eexists. Qed.

Example launch_without_placement_panics :
  ∃ w', RunScanningJob (λ _, Ok "payload") (λ s, s) sim.client "us-east-1" "i-1"
          jobConfig (sim.world sim.launchedNowhere)
        = Panic w'
        ∧ length (calls w') = 1.
Proof. by eexists. Qed.
